(** * trolleybus: an in-process publish/subscribe event bus

    A shallow embedding of [trolleybus/events.py], [trolleybus/bus.py] and
    [trolleybus/subscriber.py], followed by the properties of the dispatch
    engine, of the subscription registry and of the [Subscriber] binder.

    Modelling conventions.
    - A Python [set] of callables is a [gset callable]; the order in which
      Python iterates over it is not specified, so it is a parameter
      [iter_set] of which only "enumerates the members" is known.
    - A [dict] is a [gmap].
    - [uuid.uuid4] is a parameter: [uuid4_draw n] is the value returned by
      the n-th call since interpreter start.
    - Handlers are opaque: a handler is identified by a [callable] and its
      effect is a parameter [invoke], a transformer of the program state that
      returns a value or raises.
    - Methods that read and write [self], call handlers and log are written
      in a small state/exception/trace monad [M]. *)

From Stdlib Require Import ZArith Sorted.
From stdpp Require Import gmap strings list fin_maps.

Local Open Scope Z_scope.
#[local] Set Warnings "-clear-no-such-hyp".
#[local] Set Default Proof Using "Type".

(** ** Python values *)

(** Exceptions.  [SystemExit] and [KeyboardInterrupt] derive from
    [BaseException] only; all the others are instances of [Exception]. *)
Inductive exn : Type :=
| KeyError
| IndexError
| AttributeError
| NoListenersError (msg : string)
| RuntimeError
| AssertionError (msg : string)
| UserError (tag : nat)
| SystemExit
| KeyboardInterrupt.

(** [isinstance(e, Exception)] *)
Definition is_Exception (e : exn) : bool :=
  match e with
  | SystemExit | KeyboardInterrupt => false
  | _ => true
  end.

(** [isinstance(e, (IndexError, KeyError))] *)
Definition is_IndexError_or_KeyError (e : exn) : bool :=
  match e with
  | IndexError | KeyError => true
  | _ => false
  end.

(** Payloads and results. *)
Inductive value : Type :=
| VNone
| VInt (z : Z)
| VStr (s : string)
| VExc (e : exn).

(** [v is not None] *)
Definition is_not_None (v : value) : bool :=
  match v with
  | VNone => false
  | _ => true
  end.

(** What a call produces: it returns or it raises. *)
Inductive outcome (A : Type) : Type :=
| Return (a : A)
| Raise (e : exn).
Arguments Return {A} a.
Arguments Raise {A} e.

(** A callable is known to the bus by its identity only: a function object,
    or a method bound to an object (two bound methods are equal when they
    bind the same object to the same function). *)
Inductive callable : Type :=
| Function (id : nat)
| BoundMethod (self : nat) (func : string).

#[global] Instance callable_eq_dec : EqDecision callable.
Proof. solve_decision. Defined.

Definition callable_encode (c : callable) : nat + nat * string :=
  match c with
  | Function id => inl id
  | BoundMethod self func => inr (self, func)
  end.

Definition callable_decode (x : nat + nat * string) : callable :=
  match x with
  | inl id => Function id
  | inr (self, func) => BoundMethod self func
  end.

#[global] Program Instance callable_countable : Countable callable :=
  inj_countable' callable_encode callable_decode _.
Next Obligation. by intros []. Qed.

(** ** events.py *)

Module events.

(** [uuid.UUID]: a 128-bit number. *)
Abbreviation UUID := N.

(** An event class: the class attributes [name] (absent on a class that does
    not set it, like the base class [Event]) and [event_id]. *)
Record Event : Type := {
  name : option string;
  event_id : UUID;
}.

Section EventMeta.
(** [uuid4_draw n] is what the n-th call of [uuid.uuid4()] returns. *)
Variable uuid4_draw : nat -> UUID.

(** [uuid.uuid4()], threading the number of calls made so far. *)
Definition uuid4 (calls : nat) : UUID * nat :=
  (uuid4_draw calls, S calls).

(** [EventMeta.__new__]: the class statement of an event type;
    [namespace['event_id'] = uuid.uuid4()]. *)
Definition EventMeta_new (display_name : option string) (calls : nat)
  : Event * nat :=
  let (u, calls') := uuid4 calls in
  ({| name := display_name; event_id := u |}, calls').

(** A sequence of class statements, executed in order. *)
Fixpoint define_all (names : list (option string)) (calls : nat)
  : list Event * nat :=
  match names with
  | [] => ([], calls)
  | n :: names' =>
      let (e, calls1) := EventMeta_new n calls in
      let (es, calls2) := define_all names' calls1 in
      (e :: es, calls2)
  end.

(** The module body of events.py, from a fresh interpreter: the four class
    statements [Event], [OnStart], [OnStarted], [OnExit], each with the
    number of [uuid4()] calls made once it is executed. *)
Definition class_Event : Event * nat :=
  EventMeta_new None 0.
Definition class_OnStart : Event * nat :=
  EventMeta_new (Some "on-start") class_Event.2.
Definition class_OnStarted : Event * nat :=
  EventMeta_new (Some "on-stop") class_OnStart.2.
Definition class_OnExit : Event * nat :=
  EventMeta_new (Some "on-exit") class_OnStarted.2.

Definition OnStart : Event := class_OnStart.1.
Definition OnStarted : Event := class_OnStarted.1.
Definition OnExit : Event := class_OnExit.1.
End EventMeta.

End events.

(** ** bus.py: the registry *)

Module bus.
Import events.

(** [EventBus]: [self.listeners] and [self._priorities]. *)
Record EventBus : Type := {
  listeners : gmap UUID (gset callable);
  _priorities : gmap (UUID * callable) Z;
}.

(** [sorted(l, key=...)]: Python's sort is stable. *)
Fixpoint insert_sorted {A} (key : A -> Z) (x : A) (l : list A) : list A :=
  match l with
  | [] => [x]
  | y :: l' => if key x <=? key y then x :: l else y :: insert_sorted key x l'
  end.

Definition sorted {A} (key : A -> Z) (l : list A) : list A :=
  foldr (insert_sorted key) [] l.

Section Registry.
Variable uuid4_draw : nat -> UUID.
(** The order in which Python iterates over a set. *)
Variable iter_set : gset callable -> list callable.

(** [default_events] *)
Definition default_events : list Event :=
  [OnStart uuid4_draw; OnStarted uuid4_draw; OnExit uuid4_draw].

(** [EventBus.__init__]: the dict comprehension inserts one empty set per
    default event, in order. *)
Definition __init__ : EventBus :=
  {| listeners :=
       foldl (fun d event => <[event_id event := (∅ : gset callable)]> d)
             ∅ default_events;
     _priorities := ∅ |}.

(** The body of [subscribe] under [if callback is not None]. *)
Definition subscribe_callback (self : EventBus) (event : Event)
    (callback : callable) (priority : Z) : EventBus :=
  let callbacks := default ∅ (listeners self !! event_id event) in
  {| listeners := <[event_id event := {[callback]} ∪ callbacks]> (listeners self);
     _priorities := <[(event_id event, callback) := priority]> (_priorities self) |}.

(** The inner function [decorator] of [subscribe]:
    [self.subscribe(event, _callback, priority)]. *)
Definition decorator (event : Event) (priority : Z) (_callback : callable)
    (self : EventBus) : EventBus :=
  subscribe_callback self event _callback priority.

(** [EventBus.subscribe]: the bus afterwards, and the returned decorator. *)
Definition subscribe (self : EventBus) (event : Event)
    (callback : option callable) (priority : Z)
  : EventBus * (callable -> EventBus -> EventBus) :=
  (match callback with
   | Some cb => subscribe_callback self event cb priority
   | None => self
   end,
   decorator event priority).

(** [EventBus.unsubscribe]. [del self._priorities[...]] raises [KeyError]
    on a missing key, after the listener was discarded. *)
Definition unsubscribe (self : EventBus) (event : Event) (callback : callable)
  : outcome unit * EventBus :=
  match listeners self !! event_id event with
  | Some ls =>
      if decide (ls ≠ ∅ ∧ callback ∈ ls) then
        let self1 :=
          {| listeners := <[event_id event := ls ∖ {[callback]}]> (listeners self);
             _priorities := _priorities self |} in
        match _priorities self1 !! (event_id event, callback) with
        | Some _ =>
            (Return tt,
             {| listeners := listeners self1;
                _priorities := delete (event_id event, callback) (_priorities self1) |})
        | None => (Raise KeyError, self1)
        end
      else (Return tt, self)
  | None => (Return tt, self)
  end.

(** [EventBus._sort_listeners]. [self.listeners[event_name]] and
    [self._priorities[...]] raise [KeyError] on a missing key. *)
Definition _sort_listeners (self : EventBus) (event_name : UUID)
  : outcome (list (Z * callable)) :=
  match listeners self !! event_name with
  | None => Raise KeyError
  | Some ls =>
      match mapM (fun l => (fun p => (p, l)) <$> _priorities self !! (event_name, l))
                 (iter_set ls) with
      | None => Raise KeyError
      | Some unsorted => Return (sorted fst unsorted)
      end
  end.
End Registry.

(** *** Effects of a method call *)

(** Records written to [self.log]. *)
Inductive log_record : Type :=
| LogInfo (msg : string)
| LogError (msg : string)
| LogException (listener : callable) (payload : value) (error : exn).

(** What a bus method does that its caller can observe besides the result:
    the handlers it calls and the records it logs, in order. *)
Inductive effect : Type :=
| Call (listener : callable) (payload : value)
| Log (record : log_record).

Section Dispatch.
Variable uuid4_draw : nat -> UUID.
Variable iter_set : gset callable -> list callable.
(** The program state, the bus [self] inside it, and what calling a
    handler does to the state. *)
Context {S : Type}.
Variable self_of : S -> EventBus.
Variable invoke : callable -> value -> S -> outcome value * S.

(** State, exception and trace monad. *)
Definition M (A : Type) : Type := S -> outcome A * S * list effect.

Definition ret {A} (a : A) : M A := fun s => (Return a, s, []).

Definition raise {A} (e : exn) : M A := fun s => (Raise e, s, []).

Definition bind {A B} (m : M A) (k : A -> M B) : M B :=
  fun s =>
    match m s with
    | (Return a, s1, t1) => let '(o, s2, t2) := k a s1 in (o, s2, t1 ++ t2)
    | (Raise e, s1, t1) => (Raise e, s1, t1)
    end.

(** [try: m  except <classes> as error: handler error] *)
Definition try_except {A} (m : M A) (classes : exn -> bool)
    (handler : exn -> M A) : M A :=
  fun s =>
    match m s with
    | (Raise e, s1, t1) =>
        if classes e
        then let '(o, s2, t2) := handler e s1 in (o, s2, t1 ++ t2)
        else (Raise e, s1, t1)
    | r => r
    end.

Definition lift {A} (o : outcome A) : M A := fun s => (o, s, []).

Definition get_self : M EventBus := fun s => (Return (self_of s), s, []).

Definition log (record : log_record) : M unit :=
  fun s => (Return tt, s, [Log record]).

(** [listener(payload)] *)
Definition call (listener : callable) (payload : value) : M value :=
  fun s => let (o, s1) := invoke listener payload s in (o, s1, [Call listener payload]).

(** [event.name] *)
Definition getattr_name (event : Event) : M string :=
  match name event with
  | Some n => ret n
  | None => raise AttributeError
  end.

Notation "'let!' x ':=' m 'in' k" := (bind m (fun x => k))
  (at level 10, x pattern, m at level 100, k at level 200).

(** The [for] loop of [broadcast]. *)
Fixpoint broadcast_for (ls : list (Z * callable)) (payload : value)
    (results : list value) : M (list value) :=
  match ls with
  | [] => ret results
  | (_, listener) :: ls' =>
      let! result :=
        try_except (call listener payload) is_Exception
          (fun error =>
             let! _ := log (LogException listener payload error) in
             raise error) in
      broadcast_for ls' payload (results ++ [result])
  end.

(** [EventBus.broadcast] *)
Definition broadcast (event : Event) (payload : value) : M (list value) :=
  let! self := get_self in
  if decide (listeners self !! event_id event = None) then ret []
  else
    let! ls := lift (_sort_listeners iter_set self (event_id event)) in
    broadcast_for ls payload [].

(** The [for] loop of [broadcast_nothrow]. *)
Fixpoint broadcast_nothrow_for (ls : list (Z * callable)) (payload : value)
    (results : list (value * bool)) : M (list (value * bool)) :=
  match ls with
  | [] => ret results
  | (_, listener) :: ls' =>
      let! entry :=
        try_except
          (let! result := call listener payload in ret (result, false))
          is_Exception
          (fun error => ret (VExc error, true)) in
      broadcast_nothrow_for ls' payload (results ++ [entry])
  end.

(** [EventBus.broadcast_nothrow] *)
Definition broadcast_nothrow (event : Event) (payload : value)
  : M (list (value * bool)) :=
  let! self := get_self in
  if decide (listeners self !! event_id event = None) then ret []
  else
    let! ls := lift (_sort_listeners iter_set self (event_id event)) in
    broadcast_nothrow_for ls payload [].

(** [EventBus.send_one] *)
Definition send_one (event : Event) (payload : value) : M value :=
  let! listener :=
    try_except
      (let! self := get_self in
       let! ls := lift (_sort_listeners iter_set self (event_id event)) in
       match ls with
       | [] => raise IndexError
       | (_, l) :: _ => ret l
       end)
      is_IndexError_or_KeyError
      (fun _ =>
         let! n := getattr_name event in
         let msg := "No listeners for " +:+ n in
         let! _ := log (LogError msg) in
         raise (NoListenersError msg)) in
  call listener payload.

(** The [for] loop of [send_any]. *)
Fixpoint send_any_for (ls : list (Z * callable)) (payload : value) : M value :=
  match ls with
  | [] => ret VNone
  | (_, listener) :: ls' =>
      let! result :=
        try_except (call listener payload) is_Exception
          (fun error =>
             let! _ := log (LogException listener payload error) in
             raise error) in
      if is_not_None result then ret result
      else send_any_for ls' payload
  end.

(** [EventBus.send_any] *)
Definition send_any (event : Event) (payload : value) : M value :=
  let! self := get_self in
  if decide (listeners self !! event_id event = None) then ret VNone
  else
    let! ls := lift (_sort_listeners iter_set self (event_id event)) in
    send_any_for ls payload.

(** [EventBus.start] *)
Definition start : M (list value) :=
  let! _ := log (LogInfo "Event bus is starting...") in
  broadcast (OnStart uuid4_draw) VNone.

(** [EventBus.stop] *)
Definition stop : M (list (value * bool)) :=
  let! _ := log (LogInfo "Event bus is exiting...") in
  broadcast_nothrow (OnExit uuid4_draw) VNone.
End Dispatch.

End bus.

(** ** subscriber.py *)

Module subscriber.
Import events bus.

(** A [Subscriber] instance.  [members] is what [inspect.getmembers(self)]
    enumerates, by attribute name, each with its [_subscriber_info] when it
    has one (the methods decorated with [@subscribe(event, priority)]); the
    member of name [func] is the bound method [BoundMethod self func]. *)
Record Subscriber : Type := {
  members : list (string * option (Event * Z));
  __subscriptions : list (Event * callable);
}.

(** The program state: the bus, and the [Subscriber] instances that hold it,
    by object identity. *)
Record World : Type := {
  w_bus : EventBus;
  objects : gmap nat Subscriber;
}.

Section Subscriber.
Variable uuid4_draw : nat -> UUID.
(** What the handlers other than [Subscriber.on_start] and
    [Subscriber.on_exit] do: they return or raise, and leave the bus and
    the subscribers alone. *)
Variable user : callable -> value -> outcome value.

(** [Subscriber.__init__(self, bus)] for a new object [self] of a class
    with the given members. *)
Definition __init__ (self : nat) (members : list (string * option (Event * Z)))
    (w : World) : World :=
  let obj := {| members := members; __subscriptions := [] |} in
  let bus1 := fst (subscribe (w_bus w) (OnStart uuid4_draw)
                     (Some (BoundMethod self "on_start")) 50) in
  let bus2 := fst (subscribe bus1 (OnExit uuid4_draw)
                     (Some (BoundMethod self "on_exit")) 50) in
  {| w_bus := bus2; objects := <[self := obj]> (objects w) |}.

(** [self.__subscriptions.append(x)] *)
Definition append_subscription (self : nat) (x : Event * callable) (w : World)
  : World :=
  {| w_bus := w_bus w;
     objects := alter (fun obj => {| members := members obj;
                                     __subscriptions := __subscriptions obj ++ [x] |})
                      self (objects w) |}.

(** The [for] loop of [on_start] over the members. *)
Fixpoint on_start_for (self : nat) (ms : list (string * option (Event * Z)))
    (w : World) : World :=
  match ms with
  | [] => w
  | (_, None) :: ms' => on_start_for self ms' w
  | (func, Some (event, priority)) :: ms' =>
      let member := BoundMethod self func in
      let w1 := {| w_bus := fst (subscribe (w_bus w) event (Some member) priority);
                   objects := objects w |} in
      on_start_for self ms' (append_subscription self (event, member) w1)
  end.

(** [Subscriber.on_start] *)
Definition on_start (self : nat) (_ : value) (w : World) : outcome value * World :=
  match objects w !! self with
  | Some obj => (Return VNone, on_start_for self (members obj) w)
  | None => (Raise AttributeError, w)
  end.

(** The [for] loop of [on_exit] over the recorded pairs. *)
Fixpoint on_exit_for (subs : list (Event * callable)) (w : World)
  : outcome value * World :=
  match subs with
  | [] => (Return VNone, w)
  | (event, member) :: subs' =>
      match unsubscribe (w_bus w) event member with
      | (Return _, bus1) =>
          on_exit_for subs' {| w_bus := bus1; objects := objects w |}
      | (Raise e, bus1) => (Raise e, {| w_bus := bus1; objects := objects w |})
      end
  end.

(** [Subscriber.on_exit] *)
Definition on_exit (self : nat) (_ : value) (w : World) : outcome value * World :=
  match objects w !! self with
  | Some obj => on_exit_for (__subscriptions obj) w
  | None => (Raise AttributeError, w)
  end.

(** Calling a handler: the two lifecycle methods of a live [Subscriber]
    are the code above, every other callable is user code. *)
Definition invoke (listener : callable) (payload : value) (w : World)
  : outcome value * World :=
  match listener with
  | BoundMethod self func =>
      match objects w !! self with
      | Some _ =>
          if decide (func = "on_start") then on_start self payload w
          else if decide (func = "on_exit") then on_exit self payload w
          else (user listener payload, w)
      | None => (user listener payload, w)
      end
  | Function _ => (user listener payload, w)
  end.
End Subscriber.

End subscriber.

(** ** Vocabulary of the properties *)

Import events bus subscriber.

(** The registry invariant: a callable is in the listener set of an event
    identifier exactly when the pair has a recorded priority. *)
Definition bus_inv (self : EventBus) : Prop :=
  ∀ (eid : UUID) (h : callable),
    (∃ ls, listeners self !! eid = Some ls ∧ h ∈ ls)
    ↔ is_Some (_priorities self !! (eid, h)).

(** The handlers registered for an event identifier; none when the
    identifier is unknown. *)
Definition handlers_of (self : EventBus) (eid : UUID) : gset callable :=
  default ∅ (listeners self !! eid).

(** What [_sort_listeners] returns; nothing when it raises. *)
Definition sorted_listeners (iter_set : gset callable -> list callable)
    (self : EventBus) (eid : UUID) : list (Z * callable) :=
  match _sort_listeners iter_set self eid with
  | Return l => l
  | Raise _ => []
  end.

(** The handlers of an event in the order [_sort_listeners] puts them. *)
Definition priority_order (iter_set : gset callable -> list callable)
    (self : EventBus) (eid : UUID) : list callable :=
  (sorted_listeners iter_set self eid).*2.

(** The handlers called, in order, according to a trace. *)
Definition calls_of (t : list effect) : list callable :=
  omap (fun ef => match ef with Call h _ => Some h | Log _ => None end) t.

(** The four dispatch strategies, and the trace each leaves. *)
Inductive strategy : Type :=
| Broadcast
| BroadcastNothrow
| SendOne
| SendAny.

Definition trace_of {S} (iter_set : gset callable -> list callable)
    (self_of : S -> EventBus) (invoke : callable -> value -> S -> outcome value * S)
    (st : strategy) (event : Event) (payload : value) (s : S) : list effect :=
  match st with
  | Broadcast => snd (broadcast iter_set self_of invoke event payload s)
  | BroadcastNothrow => snd (broadcast_nothrow iter_set self_of invoke event payload s)
  | SendOne => snd (send_one iter_set self_of invoke event payload s)
  | SendAny => snd (send_any iter_set self_of invoke event payload s)
  end.

(** The handlers [hs] called one after the other with [payload], each in
    the state its predecessor left, whatever each of them produces. *)
Fixpoint call_in_turn {S} (invoke : callable -> value -> S -> outcome value * S)
    (hs : list callable) (payload : value) (s : S) : list (outcome value) * S :=
  match hs with
  | [] => ([], s)
  | h :: hs' =>
      let (o, s1) := invoke h payload s in
      let (os, s2) := call_in_turn invoke hs' payload s1 in
      (o :: os, s2)
  end.

(** The entry of [broadcast_nothrow]'s result for one handler. *)
Definition nothrow_entry (o : outcome value) : value * bool :=
  match o with
  | Return result => (result, false)
  | Raise error => (VExc error, true)
  end.

(** The two methods of [Subscriber] that it subscribes at construction. *)
Definition lifecycle_method (func : string) : Prop :=
  func = "on_start" ∨ func = "on_exit".

(** The pairs [on_start] records for the members [ms] of [self]. *)
Definition recorded (self : nat) (ms : list (string * option (Event * Z)))
  : list (Event * callable) :=
  omap (fun m => (fun info => (info.1, BoundMethod self m.1)) <$> m.2) ms.

(** The subscribers of a world are as the class [Subscriber] makes them:
    the decorated members are not the two lifecycle methods, and the
    recorded pairs are bound methods of the object itself, not its lifecycle
    methods. *)
Definition objects_wf (w : World) : Prop :=
  ∀ o obj, objects w !! o = Some obj →
    (∀ func info, (func, Some info) ∈ members obj → ¬ lifecycle_method func) ∧
    (∀ event h, (event, h) ∈ __subscriptions obj →
       ∃ func, h = BoundMethod o func ∧ ¬ lifecycle_method func).

(** The binder [self] is bound to the exit event as its constructor leaves
    it: its [on_exit] is subscribed to [OnExit], its [on_start] is not, and
    each of its decorated members that is registered for its event was
    recorded. *)
Definition binder_ready (uuid4_draw : nat -> UUID) (self : nat) (w : World) : Prop :=
  ∃ obj, objects w !! self = Some obj ∧
    BoundMethod self "on_exit" ∈ handlers_of (w_bus w) (event_id (OnExit uuid4_draw)) ∧
    (BoundMethod self "on_start" ∉ handlers_of (w_bus w) (event_id (OnExit uuid4_draw))) ∧
    (∀ func event priority,
      (func, Some (event, priority)) ∈ members obj →
      BoundMethod self func ∈ handlers_of (w_bus w) (event_id event) →
      ∃ event', (event', BoundMethod self func) ∈ __subscriptions obj ∧
                event_id event' = event_id event).

Definition binder_inv (uuid4_draw : nat -> UUID) (self : nat) (w : World) : Prop :=
  bus_inv (w_bus w) ∧ objects_wf w ∧ binder_ready uuid4_draw self w.

(** No pair recorded by the binder [self] is registered. *)
Definition binder_unregistered (self : nat) (w : World) : Prop :=
  ∀ obj event h,
    objects w !! self = Some obj →
    (event, h) ∈ __subscriptions obj →
    h ∉ handlers_of (w_bus w) (event_id event).

(** Unfolding the operations of the monad [M]. *)
Ltac unfold_M :=
  unfold bind, try_except, call, ret, raise, log, lift, get_self, getattr_name.

(** Ascending order of keys. *)
Definition key_le {A} (key : A -> Z) (a b : A) : Prop := key a <= key b.

(** ** Concrete events, registries and handlers

    The events, handlers and subscriptions of tests/test_trolleybus.py, used
    to instantiate the properties below. *)

(** An interpreter in which the n-th [uuid4()] returns n. *)
Definition test_draw : nat -> UUID := N.of_nat.

(** [class TestEvent] and [class TestEventOptional], defined after the four
    classes of events.py. *)
Definition class_TestEvent : Event * nat :=
  EventMeta_new test_draw (Some "test-event") (class_OnExit test_draw).2.
Definition class_TestEventOptional : Event * nat :=
  EventMeta_new test_draw (Some "test-event-optional") class_TestEvent.2.

Definition TestEvent : Event := class_TestEvent.1.
Definition TestEventOptional : Event := class_TestEventOptional.1.

(** The handlers of the tests, on a state that is the bus alone:
    [Function 1] returns its payload, [Function 2] doubles it, [Function 3]
    raises [RuntimeError], [Function 4] returns [None], [Function 5]
    returns 5. *)
Definition test_handlers (h : callable) (payload : value) (s : EventBus)
  : outcome value * EventBus :=
  (match h, payload with
   | Function 1, _ => Return payload
   | Function 2, VInt z => Return (VInt (z * 2))
   | Function 3, _ => Raise RuntimeError
   | Function 5, _ => Return (VInt 5)
   | _, _ => Return VNone
   end, s).

(** [test_priority]: [Function 1] at priority 60, [Function 2] at 40. *)
Definition priority_bus : EventBus :=
  subscribe_callback
    (subscribe_callback (bus.__init__ test_draw) TestEvent (Function 1) 60)
    TestEvent (Function 2) 40.


(** [test_send_any] with a third handler: [Function 5] at priority 70,
    [Function 1] at 60, a handler that returns [None] at 40. *)
Definition optional_bus : EventBus :=
  subscribe_callback
    (subscribe_callback
       (subscribe_callback (bus.__init__ test_draw) TestEventOptional (Function 5) 70)
       TestEventOptional (Function 1) 60)
    TestEventOptional (Function 4) 40.

(** [test_subscriber]: a [Subscriber] with one decorated method
    [on_test_event], constructed on a new bus; its method doubles the
    payload. *)
Definition test_user (h : callable) (payload : value) : outcome value :=
  match payload with
  | VInt z => Return (VInt (z * 2))
  | _ => Return VNone
  end.

Definition test_world : World :=
  subscriber.__init__ test_draw 0
    [("bus", None); ("on_exit", None); ("on_start", None);
     ("on_test_event", Some (TestEvent, 50))]
    {| w_bus := bus.__init__ test_draw; objects := ∅ |}.

Definition started_world : World :=
  (start test_draw elements w_bus (subscriber.invoke test_user) test_world).1.2.

Definition stopped_world : World :=
  (stop test_draw elements w_bus (subscriber.invoke test_user) started_world).1.2.

(** ** Further vocabulary *)

(** The state each dispatch strategy leaves. *)
Definition state_of {S} (iter_set : gset callable -> list callable)
    (self_of : S -> EventBus) (invoke : callable -> value -> S -> outcome value * S)
    (st : strategy) (event : Event) (payload : value) (s : S) : S :=
  match st with
  | Broadcast => (broadcast iter_set self_of invoke event payload s).1.2
  | BroadcastNothrow => (broadcast_nothrow iter_set self_of invoke event payload s).1.2
  | SendOne => (send_one iter_set self_of invoke event payload s).1.2
  | SendAny => (send_any iter_set self_of invoke event payload s).1.2
  end.

(** The handlers [hs] stand in ascending order of the priorities recorded
    for the event identifier [eid]: of two of them, the one that stands
    first has a recorded priority that is not greater than the other's. *)
Definition ascending_priority (self : EventBus) (eid : UUID)
    (hs : list callable) : Prop :=
  ∀ (i j : nat) (h1 h2 : callable),
    (i < j)%nat → hs !! i = Some h1 → hs !! j = Some h2 →
    ∃ p1 p2 : Z,
      _priorities self !! (eid, h1) = Some p1 ∧
      _priorities self !! (eid, h2) = Some p2 ∧ p1 <= p2.

(** The binder [self] is bound to the bus as its constructor leaves it:
    besides [binder_inv], its [on_start] is subscribed to [OnStart] and its
    [on_exit] is not. *)
Definition binder_bound (uuid4_draw : nat -> UUID) (self : nat) (w : World) : Prop :=
  binder_inv uuid4_draw self w ∧
  BoundMethod self "on_start" ∈ handlers_of (w_bus w) (event_id (OnStart uuid4_draw)) ∧
  (BoundMethod self "on_exit" ∉ handlers_of (w_bus w) (event_id (OnStart uuid4_draw))).

(** [a] stands before [b] in [l]. *)
Definition before {A} (a b : A) (l : list A) : Prop :=
  ∃ l1 l2 l3, l = l1 ++ a :: l2 ++ b :: l3.

(** The world after [bus.start()] followed by [bus.stop()]. *)
Definition start_stop (uuid4_draw : nat -> UUID)
    (iter_set : gset callable -> list callable)
    (user : callable -> value -> outcome value) (w : World) : World :=
  (stop uuid4_draw iter_set w_bus (subscriber.invoke user)
     (start uuid4_draw iter_set w_bus (subscriber.invoke user) w).1.2).1.2.

(** Handlers for a shutdown: [Function 1] raises [RuntimeError],
    [Function 2] calls [sys.exit()], [Function 3] returns [None]. *)
Definition exit_handlers (h : callable) (payload : value) (s : EventBus)
  : outcome value * EventBus :=
  (match h with
   | Function 1 => Raise RuntimeError
   | Function 2 => Raise SystemExit
   | _ => Return VNone
   end, s).

(** A bus with these three handlers subscribed to [OnExit] at priorities
    10, 20 and 30. *)
Definition exit_bus : EventBus :=
  subscribe_callback
    (subscribe_callback
       (subscribe_callback (bus.__init__ test_draw) (OnExit test_draw) (Function 1) 10)
       (OnExit test_draw) (Function 2) 20)
    (OnExit test_draw) (Function 3) 30.

(** [test_on_start] with two handlers of [OnStart]: [Function 5] at
    priority 60 and [Function 1], which returns its payload, at 40. *)
Definition start_bus : EventBus :=
  subscribe_callback
    (subscribe_callback (bus.__init__ test_draw) (OnStart test_draw) (Function 5) 60)
    (OnStart test_draw) (Function 1) 40.


(** A bus with two handlers of [TestEvent] at the same priority. *)
Definition tie_bus : EventBus :=
  subscribe_callback
    (subscribe_callback (bus.__init__ test_draw) TestEvent (Function 1) 50)
    TestEvent (Function 2) 50.

(** A second [Subscriber], with no decorated method, on the bus of
    [test_world]. *)
Definition two_binders_world : World :=
  subscriber.__init__ test_draw 1
    [("bus", None); ("on_exit", None); ("on_start", None)] test_world.

(** An event class that does not set [name]. *)
Definition class_Nameless : Event * nat :=
  EventMeta_new test_draw None class_TestEventOptional.2.
Definition Nameless : Event := class_Nameless.1.

(** ** The sort *)

Section Sorted.
Context {A : Type} (key : A -> Z).
Local Abbreviation key_le := (key_le key).

Lemma insert_sorted_perm (x : A) (l : list A) :
  insert_sorted key x l ≡ₚ x :: l.
Proof.
  induction l as [|y l IH]; simpl; [done|].
  destruct (key x <=? key y); [done|].
  rewrite IH. apply perm_swap.
Qed.

Lemma sorted_perm (l : list A) : sorted key l ≡ₚ l.
Proof.
  induction l as [|x l IH]; simpl; [done|].
  rewrite insert_sorted_perm. by rewrite IH.
Qed.

Lemma insert_sorted_StronglySorted (x : A) (l : list A) :
  StronglySorted key_le l → StronglySorted key_le (insert_sorted key x l).
Proof.
  induction 1 as [|y l Hl IH Hy]; simpl.
  - repeat constructor.
  - destruct (Z.leb_spec (key x) (key y)) as [Hle|Hlt].
    + constructor; [by constructor|].
      constructor; [done|].
      eapply Forall_impl; [exact Hy|]. unfold key_le. intros; lia.
    + constructor; [done|].
      rewrite insert_sorted_perm. constructor; [unfold key_le; lia|done].
Qed.

Lemma sorted_StronglySorted (l : list A) : StronglySorted key_le (sorted key l).
Proof.
  induction l as [|x l IH]; simpl; [constructor|].
  by apply insert_sorted_StronglySorted.
Qed.

(** In a sorted list, an element of strictly smaller key comes first. *)
Lemma StronglySorted_lookup_lt (l : list A) (i j : nat) (a b : A) :
  StronglySorted key_le l →
  l !! i = Some a → l !! j = Some b → key a < key b → (i < j)%nat.
Proof.
  intros Hs. revert i j. induction Hs as [|y l Hl IH Hy]; intros i j Hi Hj Hlt.
  - by rewrite lookup_nil in Hi.
  - destruct i as [|i], j as [|j]; simpl in *.
    + simplify_eq. lia.
    + lia.
    + simplify_eq. rewrite Forall_forall in Hy.
      assert (key_le b a) as Hba by (apply Hy; by eapply list_elem_of_lookup_2).
      unfold key_le in Hba. lia.
    + apply ->Nat.succ_lt_mono. by apply IH.
Qed.

(** In a sorted list, the key of an element is not greater than the keys
    of the elements after it. *)
Lemma StronglySorted_lookup_le (l : list A) (i j : nat) (a b : A) :
  StronglySorted key_le l →
  (i < j)%nat → l !! i = Some a → l !! j = Some b → key a <= key b.
Proof.
  intros Hs. revert i j. induction Hs as [|y l Hl IH Hy]; intros i j Hij Hi Hj.
  - by rewrite lookup_nil in Hi.
  - destruct i as [|i], j as [|j]; simpl in *; [lia| |lia|].
    + simplify_eq. rewrite Forall_forall in Hy.
      apply (Hy b). by eapply list_elem_of_lookup_2.
    + apply (IH i j); [lia|done|done].
Qed.
End Sorted.

(** ** The registry *)

Section RegistryFacts.
Variable uuid4_draw : nat -> UUID.

Lemma init_listeners_empty (eid : UUID) (ls : gset callable) :
  listeners (bus.__init__ uuid4_draw) !! eid = Some ls → ls = ∅.
Proof.
  unfold bus.__init__, default_events; simpl.
  rewrite !lookup_insert_Some, lookup_empty. naive_solver.
Qed.

Lemma bus_inv_init : bus_inv (bus.__init__ uuid4_draw).
Proof.
  intros eid h. split.
  - intros (ls & Hls & Hh). apply init_listeners_empty in Hls. set_solver.
  - simpl. rewrite lookup_empty. by intros [? ?].
Qed.

Lemma handlers_of_subscribe_callback self event cb priority eid :
  handlers_of (subscribe_callback self event cb priority) eid =
  if decide (event_id event = eid) then {[cb]} ∪ handlers_of self eid
  else handlers_of self eid.
Proof.
  unfold handlers_of, subscribe_callback; simpl.
  case_decide as Heq; [subst; by rewrite lookup_insert_eq|by rewrite lookup_insert_ne].
Qed.

Lemma elem_of_handlers_of self eid h :
  h ∈ handlers_of self eid ↔ ∃ ls, listeners self !! eid = Some ls ∧ h ∈ ls.
Proof.
  unfold handlers_of. destruct (listeners self !! eid) as [ls|]; simpl.
  - naive_solver.
  - split; [set_solver|]. by intros (? & ? & ?).
Qed.

Lemma bus_inv_alt self :
  bus_inv self ↔
  ∀ eid h, h ∈ handlers_of self eid ↔ is_Some (_priorities self !! (eid, h)).
Proof.
  unfold bus_inv. split; intros H eid h.
  - by rewrite elem_of_handlers_of.
  - by rewrite <-elem_of_handlers_of.
Qed.

Lemma bus_inv_subscribe_callback self event cb priority :
  bus_inv self → bus_inv (subscribe_callback self event cb priority).
Proof.
  rewrite !bus_inv_alt. intros Hinv eid h.
  rewrite handlers_of_subscribe_callback. simpl.
  destruct (decide ((event_id event, cb) = (eid, h))) as [Heq|Hne].
  - simplify_eq. rewrite decide_True by done. rewrite lookup_insert_eq.
    split; [by eauto|set_solver].
  - rewrite lookup_insert_ne by done. rewrite <-Hinv.
    case_decide; [|done]. subst. set_solver.
Qed.

Lemma bus_inv_subscribe self event callback priority :
  bus_inv self → bus_inv (fst (subscribe self event callback priority)).
Proof.
  intros Hinv. destruct callback; simpl; [|done].
  by apply bus_inv_subscribe_callback.
Qed.

Lemma bus_inv_decorator self event callback priority cb :
  bus_inv self → bus_inv (snd (subscribe self event callback priority) cb self).
Proof. simpl. unfold decorator. apply bus_inv_subscribe_callback. Qed.

(** What [unsubscribe] does to a registry that satisfies the invariant. *)
Lemma unsubscribe_inv self event cb :
  bus_inv self →
  fst (unsubscribe self event cb) = Return tt ∧
  bus_inv (snd (unsubscribe self event cb)) ∧
  ∀ eid, handlers_of (snd (unsubscribe self event cb)) eid =
         if decide (event_id event = eid) then handlers_of self eid ∖ {[cb]}
         else handlers_of self eid.
Proof.
  intros Hinv. unfold unsubscribe.
  destruct (listeners self !! event_id event) as [ls|] eqn:Hls; simpl.
  - case_decide as Hin; simpl.
    + destruct Hin as [_ Hin].
      assert (is_Some (_priorities self !! (event_id event, cb))) as [p Hp]
        by (apply Hinv; eauto).
      rewrite Hp. simpl. split; [done|]. split.
      * apply bus_inv_alt. intros eid h. unfold handlers_of at 1. simpl.
        destruct (decide ((event_id event, cb) = (eid, h))) as [Heq|Hne].
        -- simplify_eq. rewrite lookup_insert_eq, lookup_delete_eq. simpl.
           split; [set_solver|by intros [? ?]].
        -- rewrite lookup_delete_ne by done.
           rewrite <-(proj1 (bus_inv_alt self) Hinv). unfold handlers_of.
           destruct (decide (event_id event = eid)) as [<-|].
           ++ rewrite lookup_insert_eq, Hls. simpl. set_solver.
           ++ by rewrite lookup_insert_ne.
      * intros eid. unfold handlers_of; simpl. case_decide as Heq.
        -- subst. by rewrite lookup_insert_eq, Hls.
        -- by rewrite lookup_insert_ne.
    + split; [done|]. split; [done|]. intros eid. case_decide as Heq; [|done].
      subst. unfold handlers_of. rewrite Hls. simpl.
      apply not_and_l in Hin as [Hin|Hin]; [|set_solver].
      apply dec_stable in Hin. set_solver.
  - split; [done|]. split; [done|]. intros eid. case_decide as Heq; [|done].
    subst. unfold handlers_of. rewrite Hls. simpl. set_solver.
Qed.

End RegistryFacts.

Section SortListeners.
Variable iter_set : gset callable -> list callable.
Hypothesis iter_set_elements : ∀ s, iter_set s ≡ₚ elements s.

(** What [_sort_listeners] returns on a registry that satisfies the
    invariant: the (priority, handler) pairs of the event, each once,
    in ascending priority. *)
Lemma sort_listeners_inv self eid ls :
  bus_inv self → listeners self !! eid = Some ls →
  ∃ l, _sort_listeners iter_set self eid = Return l ∧
       StronglySorted (key_le fst) l ∧
       NoDup l.*2 ∧
       (∀ p h, (p, h) ∈ l ↔ h ∈ ls ∧ _priorities self !! (eid, h) = Some p).
Proof using iter_set_elements.
  intros Hinv Hls. unfold _sort_listeners. rewrite Hls.
  set (f := fun l : callable => (fun p : Z => (p, l)) <$> _priorities self !! (eid, l)).
  assert (is_Some (mapM f (iter_set ls))) as [unsorted Hun].
  { apply mapM_is_Some, Forall_forall. intros h Hh.
    rewrite iter_set_elements, elem_of_elements in Hh.
    assert (is_Some (_priorities self !! (eid, h))) as [p Hp]
      by (apply Hinv; eauto).
    unfold compose, f. rewrite Hp. by eexists. }
  rewrite Hun. eexists; split; [done|].
  apply mapM_Some in Hun.
  assert (unsorted.*2 = iter_set ls) as Hsnd.
  { clear -Hun. induction Hun as [|h [p h'] ? ? Hf ? IH]; simpl; [done|].
    unfold f in Hf. destruct (_priorities self !! (eid, h)); simpl in Hf; [|done].
    assert (h' = h) as -> by congruence. f_equal. exact IH. }
  split; [apply sorted_StronglySorted|]. split.
  - rewrite (sorted_perm fst unsorted), Hsnd, iter_set_elements.
    apply NoDup_elements.
  - intros p h. rewrite (sorted_perm fst unsorted).
    rewrite <-(elem_of_elements ls), <-iter_set_elements.
    clear -Hun. induction Hun as [|h0 [p0 h0'] ? ? Hf ? IH].
    + set_solver.
    + unfold f in Hf.
      destruct (_priorities self !! (eid, h0)) as [q|] eqn:Hq; simpl in Hf; [|done].
      assert (h0' = h0 ∧ p0 = q) as [-> ->] by (split; congruence).
      rewrite !elem_of_cons, IH. naive_solver.
Qed.

(** The four methods in terms of their loops. *)
Lemma sorted_listeners_unknown self eid :
  listeners self !! eid = None → sorted_listeners iter_set self eid = [].
Proof. intros H. unfold sorted_listeners, _sort_listeners. by rewrite H. Qed.

Lemma sorted_listeners_known self eid ls :
  bus_inv self → listeners self !! eid = Some ls →
  _sort_listeners iter_set self eid = Return (sorted_listeners iter_set self eid).
Proof using iter_set_elements.
  intros Hinv Hls.
  destruct (sort_listeners_inv self eid ls Hinv Hls)
    as (l & Hl & _).
  unfold sorted_listeners. by rewrite Hl.
Qed.

(** The sorted listeners of a registry that satisfies the invariant. *)
Lemma sorted_listeners_inv self eid :
  bus_inv self →
  StronglySorted (key_le fst) (sorted_listeners iter_set self eid) ∧
  NoDup (priority_order iter_set self eid) ∧
  (∀ p h, (p, h) ∈ sorted_listeners iter_set self eid ↔
          h ∈ handlers_of self eid ∧ _priorities self !! (eid, h) = Some p).
Proof using iter_set_elements.
  intros Hinv. unfold priority_order, handlers_of.
  destruct (listeners self !! eid) as [ls|] eqn:Hls.
  - destruct (sort_listeners_inv self eid ls Hinv Hls)
      as (l & Hl & Hsorted & Hnodup & Hmem).
    unfold sorted_listeners. by rewrite Hl.
  - rewrite sorted_listeners_unknown by done. simpl.
    split; [constructor|]. split; [constructor|]. set_solver.
Qed.

Lemma elem_of_priority_order self eid h :
  bus_inv self →
  h ∈ priority_order iter_set self eid ↔ h ∈ handlers_of self eid.
Proof using iter_set_elements.
  intros Hinv.
  destruct (sorted_listeners_inv self eid Hinv) as (_ & _ & Hmem).
  unfold priority_order. rewrite list_elem_of_fmap. split.
  - intros ([p h'] & -> & Hin). by apply Hmem in Hin as [? _].
  - intros Hin.
    assert (is_Some (_priorities self !! (eid, h))) as [p Hp]
      by (by apply (proj1 (bus_inv_alt self))).
    exists (p, h). split; [done|]. by apply Hmem.
Qed.

(** The handlers in priority order are the registered handlers, each once. *)
Lemma priority_order_elements self eid :
  bus_inv self →
  priority_order iter_set self eid ≡ₚ elements (handlers_of self eid).
Proof using iter_set_elements.
  intros Hinv. apply NoDup_Permutation.
  - by destruct (sorted_listeners_inv self eid Hinv) as (_ & ? & _).
  - apply NoDup_elements.
  - intros h. rewrite elem_of_elements. by apply elem_of_priority_order.
Qed.

Lemma priority_order_length self eid :
  bus_inv self →
  length (priority_order iter_set self eid) = size (handlers_of self eid).
Proof using iter_set_elements.
  intros Hinv. by rewrite (priority_order_elements self eid Hinv).
Qed.

(** The order of [_sort_listeners] is ascending in the recorded
    priorities. *)
Lemma priority_order_ascending self eid :
  bus_inv self →
  ascending_priority self eid (priority_order iter_set self eid).
Proof using iter_set_elements.
  intros Hinv i j h1 h2 Hij Hi Hj.
  destruct (sorted_listeners_inv self eid Hinv) as (Hsorted & _ & Hmem).
  unfold priority_order in Hi, Hj.
  apply list_lookup_fmap_Some in Hi as ([p1 g1] & Hg1 & Hi).
  apply list_lookup_fmap_Some in Hj as ([p2 g2] & Hg2 & Hj).
  simpl in Hg1, Hg2. subst g1 g2.
  exists p1, p2. split; [|split].
  - apply (Hmem p1 h1). by eapply list_elem_of_lookup_2.
  - apply (Hmem p2 h2). by eapply list_elem_of_lookup_2.
  - by apply (StronglySorted_lookup_le fst (sorted_listeners iter_set self eid)
                i j (p1, h1) (p2, h2)).
Qed.
End SortListeners.

(** ** The dispatch loops *)

Section LoopFacts.
Context {S : Type}.
Variable invoke : callable -> value -> S -> outcome value * S.

Local Abbreviation call_in_turn := (call_in_turn invoke).
Local Abbreviation Calls v hs := ((fun h => Call h v) <$> hs).

Lemma call_in_turn_app hs1 hs2 v s :
  call_in_turn (hs1 ++ hs2) v s =
  let (os1, s1) := call_in_turn hs1 v s in
  let (os2, s2) := call_in_turn hs2 v s1 in
  (os1 ++ os2, s2).
Proof.
  revert s. induction hs1 as [|h hs1 IH]; intros s; csimpl.
  - by destruct (call_in_turn hs2 v s).
  - destruct (invoke h v s) as [o s1]. rewrite IH.
    destruct (call_in_turn hs1 v s1) as [os1 s2].
    by destruct (call_in_turn hs2 v s2).
Qed.

Lemma call_in_turn_length hs v s : length (call_in_turn hs v s).1 = length hs.
Proof.
  revert s. induction hs as [|h hs IH]; intros s; simpl; [done|].
  destruct (invoke h v s) as [o s1]. specialize (IH s1).
  destruct (call_in_turn hs v s1). simpl in *. by rewrite IH.
Qed.

(** [broadcast]'s loop when every handler returns. *)
Lemma broadcast_for_returns ls v results rs s s' :
  call_in_turn ls.*2 v s = (Return <$> rs, s') →
  broadcast_for invoke ls v results s = (Return (results ++ rs), s', Calls v ls.*2).
Proof.
  revert results rs s. induction ls as [|[p h] ls IH]; intros results rs s; csimpl.
  - destruct rs; [|done]. intros [= <-]. unfold_M. by rewrite app_nil_r.
  - unfold_M. destruct (invoke h v s) as [o s1].
    destruct (call_in_turn _ v s1) as [os s2] eqn:Hrest.
    destruct rs as [|r rs]; [done|]. intros [= -> -> ->].
    fold (@bind S). rewrite (IH (results ++ [r]) rs s1 Hrest).
    by rewrite <-app_assoc.
Qed.


(** [broadcast_nothrow]'s loop. *)
Lemma broadcast_nothrow_for_spec ls v results s :
  (∀ e, Raise e ∈ (call_in_turn ls.*2 v s).1 → is_Exception e = true) →
  broadcast_nothrow_for invoke ls v results s =
  (Return (results ++ (nothrow_entry <$> (call_in_turn ls.*2 v s).1)),
   (call_in_turn ls.*2 v s).2, Calls v ls.*2).
Proof.
  revert results s. induction ls as [|[p h] ls IH]; intros results s; csimpl.
  - intros _. unfold_M. by rewrite app_nil_r.
  - unfold_M. destruct (invoke h v s) as [o s1].
    destruct (call_in_turn _ v s1) as [os s2] eqn:Hrest. simpl.
    intros Hexc. fold (@bind S).
    assert (∀ e, Raise e ∈ (call_in_turn ls.*2 v s1).1 → is_Exception e = true)
      as Hexc' by (intros e He; apply Hexc; rewrite Hrest in He; set_solver).
    destruct o as [r|e]; csimpl.
    + rewrite (IH (results ++ [(r, false)]) s1 Hexc'), Hrest. simpl.
      by rewrite <-app_assoc.
    + rewrite (Hexc e) by set_solver. simpl.
      rewrite (IH (results ++ [(VExc e, true)]) s1 Hexc'), Hrest. simpl.
      by rewrite <-app_assoc.
Qed.

(** [send_any]'s loop when every handler returns [None]. *)
Lemma send_any_for_all_None ls v s s' :
  call_in_turn ls.*2 v s = (replicate (length ls) (Return VNone), s') →
  send_any_for invoke ls v s = (Return VNone, s', Calls v ls.*2).
Proof.
  revert s. induction ls as [|[p h] ls IH]; intros s; csimpl.
  - by intros [= <-].
  - unfold_M. destruct (invoke h v s) as [o s1].
    destruct (call_in_turn _ v s1) as [os s2] eqn:Hrest.
    intros [= -> -> ->]. simpl. fold (@bind S). by rewrite (IH s1 Hrest).
Qed.

(** [send_any]'s loop when a handler returns a result or raises after its
    predecessors returned [None]. *)
Lemma send_any_for_first pre p h post v s s1 o s2 :
  call_in_turn pre.*2 v s = (replicate (length pre) (Return VNone), s1) →
  invoke h v s1 = (o, s2) →
  o ≠ Return VNone →
  send_any_for invoke (pre ++ (p, h) :: post) v s =
  (o, s2,
   Calls v pre.*2 ++ Call h v ::
     match o with
     | Raise e => if is_Exception e then [Log (LogException h v e)] else []
     | Return _ => []
     end).
Proof.
  revert s. induction pre as [|[q g] pre IH]; intros s; csimpl.
  - intros [= <-] Hh Ho. unfold_M. rewrite Hh.
    destruct o as [[]|e]; simpl; try done. by destruct (is_Exception e).
  - unfold_M. destruct (invoke g v s) as [o' s0].
    destruct (call_in_turn _ v s0) as [os s3] eqn:Hrest.
    intros [= -> -> ->] Hh Ho. simpl. fold (@bind S).
    by rewrite (IH s0 Hrest Hh Ho).
Qed.

(** Every loop calls a prefix of the sorted handlers, in order. *)
Lemma broadcast_for_calls ls v results s :
  calls_of (broadcast_for invoke ls v results s).2 `prefix_of` ls.*2.
Proof.
  revert results s. induction ls as [|[p h] ls IH]; intros results s; csimpl.
  - done.
  - unfold_M. destruct (invoke h v s) as [[r|e] s1]; csimpl.
    + fold (@bind S). specialize (IH (results ++ [r]) s1).
      destruct (broadcast_for _ _ _ _ _) as [[o s2] t]. simpl in *.
      by apply prefix_cons.
    + destruct (is_Exception e); simpl; apply prefix_cons, prefix_nil.
Qed.

Lemma broadcast_nothrow_for_calls ls v results s :
  calls_of (broadcast_nothrow_for invoke ls v results s).2 `prefix_of` ls.*2.
Proof.
  revert results s. induction ls as [|[p h] ls IH]; intros results s; csimpl.
  - done.
  - unfold_M. destruct (invoke h v s) as [[r|e] s1]; csimpl.
    + fold (@bind S). specialize (IH (results ++ [(r, false)]) s1).
      destruct (broadcast_nothrow_for _ _ _ _ _) as [[o s2] t]. simpl in *.
      by apply prefix_cons.
    + destruct (is_Exception e); csimpl.
      * fold (@bind S). specialize (IH (results ++ [(VExc e, true)]) s1).
        destruct (broadcast_nothrow_for _ _ _ _ _) as [[o s2] t]. simpl in *.
        by apply prefix_cons.
      * apply prefix_cons, prefix_nil.
Qed.

Lemma send_any_for_calls ls v s :
  calls_of (send_any_for invoke ls v s).2 `prefix_of` ls.*2.
Proof.
  revert s. induction ls as [|[p h] ls IH]; intros s; csimpl.
  - done.
  - unfold_M. destruct (invoke h v s) as [[r|e] s1]; csimpl.
    + destruct (is_not_None r); csimpl.
      * apply prefix_cons, prefix_nil.
      * fold (@bind S). specialize (IH s1).
        destruct (send_any_for _ _ _ _) as [[o s2] t]. simpl in *.
        by apply prefix_cons.
    + destruct (is_Exception e); simpl; apply prefix_cons, prefix_nil.
Qed.

(** A property of the state that every handler keeps is kept by the
    loops. *)
Lemma call_in_turn_state (P : S → Prop) hs v s :
  (∀ h s, h ∈ hs → P s → P (invoke h v s).2) →
  P s → P (call_in_turn hs v s).2.
Proof.
  revert s. induction hs as [|h hs IH]; intros s Hkeep Hs; csimpl; [done|].
  pose proof (Hkeep h s ltac:(set_solver) Hs) as Hs1.
  destruct (invoke h v s) as [o s1]. simpl in Hs1.
  assert (P (call_in_turn hs v s1).2) as Hs2
    by (apply IH; [intros; apply Hkeep; set_solver|done]).
  by destruct (call_in_turn hs v s1).
Qed.

Lemma call_in_turn_outcomes (Q : exn → Prop) hs v s e :
  (∀ h s e, (invoke h v s).1 = Raise e → Q e) →
  Raise e ∈ (call_in_turn hs v s).1 → Q e.
Proof.
  intros HQ. revert s. induction hs as [|h hs IH]; intros s; csimpl.
  - set_solver.
  - pose proof (HQ h s) as Hh. specialize (IH (invoke h v s).2).
    destruct (invoke h v s) as [o s1]. simpl in *.
    destruct (call_in_turn hs v s1) as [os s2]. simpl in *.
    intros [Heq|Hin]%elem_of_cons; [by apply Hh|by apply IH].
Qed.

Lemma broadcast_for_state (P : S → Prop) ls v results s :
  (∀ h s, P s → P (invoke h v s).2) →
  P s → P (broadcast_for invoke ls v results s).1.2.
Proof.
  intros Hkeep. revert results s.
  induction ls as [|[p h] ls IH]; intros results s Hs; csimpl; [done|].
  unfold_M. pose proof (Hkeep h s Hs) as Hs1.
  destruct (invoke h v s) as [[r|e] s1]; simpl in *.
  - fold (@bind S). specialize (IH (results ++ [r]) s1 Hs1).
    by destruct (broadcast_for _ _ _ _ _) as [[o s2] t].
  - by destruct (is_Exception e).
Qed.

Lemma call_in_turn_app_state hs1 hs2 v s :
  (call_in_turn (hs1 ++ hs2) v s).2 = (call_in_turn hs2 v (call_in_turn hs1 v s).2).2.
Proof.
  rewrite call_in_turn_app. destruct (call_in_turn hs1 v s) as [os1 s1]. simpl.
  by destruct (call_in_turn hs2 v s1).
Qed.

Lemma call_in_turn_cons_state h hs v s :
  (call_in_turn (h :: hs) v s).2 = (call_in_turn hs v (invoke h v s).2).2.
Proof.
  simpl. destruct (invoke h v s) as [o s1]. simpl.
  by destruct (call_in_turn hs v s1).
Qed.
End LoopFacts.

(** ** The four methods *)

Section DispatchFacts.
Variable iter_set : gset callable -> list callable.
Hypothesis iter_set_elements : ∀ s, iter_set s ≡ₚ elements s.
Context {S : Type}.
Variable self_of : S -> EventBus.
Variable invoke : callable -> value -> S -> outcome value * S.

Local Abbreviation call_in_turn := (call_in_turn invoke).
Local Abbreviation Calls v hs := ((fun h => Call h v) <$> hs).

Lemma broadcast_state (P : S → Prop) event v s :
  (∀ h s, P s → P (invoke h v s).2) →
  P s → P (broadcast iter_set self_of invoke event v s).1.2.
Proof.
  intros Hkeep Hs. unfold broadcast. unfold_M.
  case_decide; simpl; [done|].
  destruct (_sort_listeners _ _ _) as [l|e]; simpl; [|done].
  pose proof (broadcast_for_state invoke P l v [] s Hkeep Hs) as Hs'.
  by destruct (broadcast_for _ _ _ _ _) as [[o s2] t].
Qed.

Lemma broadcast_eq event v s :
  bus_inv (self_of s) →
  broadcast iter_set self_of invoke event v s =
  broadcast_for invoke (sorted_listeners iter_set (self_of s) (event_id event)) v [] s.
Proof using iter_set_elements.
  intros Hinv. unfold broadcast. unfold_M.
  destruct (listeners (self_of s) !! event_id event) as [ls|] eqn:Hls.
  - rewrite decide_False by done.
    rewrite (sorted_listeners_known iter_set iter_set_elements _ _ ls Hinv Hls). simpl.
    by destruct (broadcast_for _ _ _ _ _) as [[o s2] t2].
  - rewrite decide_True by done. by rewrite sorted_listeners_unknown.
Qed.

Lemma broadcast_nothrow_eq event v s :
  bus_inv (self_of s) →
  broadcast_nothrow iter_set self_of invoke event v s =
  broadcast_nothrow_for invoke
    (sorted_listeners iter_set (self_of s) (event_id event)) v [] s.
Proof using iter_set_elements.
  intros Hinv. unfold broadcast_nothrow. unfold_M.
  destruct (listeners (self_of s) !! event_id event) as [ls|] eqn:Hls.
  - rewrite decide_False by done.
    rewrite (sorted_listeners_known iter_set iter_set_elements _ _ ls Hinv Hls). simpl.
    by destruct (broadcast_nothrow_for _ _ _ _ _) as [[o s2] t2].
  - rewrite decide_True by done. by rewrite sorted_listeners_unknown.
Qed.

Lemma send_any_eq event v s :
  bus_inv (self_of s) →
  send_any iter_set self_of invoke event v s =
  send_any_for invoke (sorted_listeners iter_set (self_of s) (event_id event)) v s.
Proof using iter_set_elements.
  intros Hinv. unfold send_any. unfold_M.
  destruct (listeners (self_of s) !! event_id event) as [ls|] eqn:Hls.
  - rewrite decide_False by done.
    rewrite (sorted_listeners_known iter_set iter_set_elements _ _ ls Hinv Hls). simpl.
    by destruct (send_any_for _ _ _ _) as [[o s2] t2].
  - rewrite decide_True by done. by rewrite sorted_listeners_unknown.
Qed.

Lemma send_one_eq event n v s :
  bus_inv (self_of s) → name event = Some n →
  send_one iter_set self_of invoke event v s =
  match sorted_listeners iter_set (self_of s) (event_id event) with
  | [] => (Raise (NoListenersError ("No listeners for " +:+ n)), s,
           [Log (LogError ("No listeners for " +:+ n))])
  | (_, listener) :: _ =>
      ((invoke listener v s).1, (invoke listener v s).2, [Call listener v])
  end.
Proof using iter_set_elements.
  intros Hinv Hn. unfold send_one. unfold_M. rewrite Hn.
  destruct (listeners (self_of s) !! event_id event) as [ls|] eqn:Hls.
  - rewrite (sorted_listeners_known iter_set iter_set_elements _ _ ls Hinv Hls). simpl.
    destruct (sorted_listeners _ _ _) as [|[p h] l]; simpl; [done|].
    by destruct (invoke h v s).
  - rewrite sorted_listeners_unknown by done.
    unfold _sort_listeners. by rewrite Hls.
Qed.

Lemma send_one_calls event v s :
  calls_of (send_one iter_set self_of invoke event v s).2
    `prefix_of` priority_order iter_set (self_of s) (event_id event).
Proof.
  unfold send_one, priority_order, sorted_listeners. unfold_M.
  destruct (_sort_listeners _ _ _) as [[|[p h] l]|e]; simpl.
  - destruct (name event); simpl; apply prefix_nil.
  - destruct (invoke h v s). simpl. apply prefix_cons, prefix_nil.
  - destruct (is_IndexError_or_KeyError e); simpl; [|apply prefix_nil].
    destruct (name event); simpl; apply prefix_nil.
Qed.

(** Whatever the strategy, the handlers called are a prefix of the
    handlers in priority order. *)
Lemma trace_of_calls st event v s :
  calls_of (trace_of iter_set self_of invoke st event v s)
    `prefix_of` priority_order iter_set (self_of s) (event_id event).
Proof.
  destruct st; simpl; [| |apply send_one_calls|].
  - unfold broadcast, priority_order, sorted_listeners. unfold_M.
    case_decide; simpl; [apply prefix_nil|].
    destruct (_sort_listeners _ _ _) as [l|e]; simpl; [|apply prefix_nil].
    pose proof (broadcast_for_calls invoke l v [] s) as Hp.
    by destruct (broadcast_for _ _ _ _ _) as [[o s2] t2].
  - unfold broadcast_nothrow, priority_order, sorted_listeners. unfold_M.
    case_decide; simpl; [apply prefix_nil|].
    destruct (_sort_listeners _ _ _) as [l|e]; simpl; [|apply prefix_nil].
    pose proof (broadcast_nothrow_for_calls invoke l v [] s) as Hp.
    by destruct (broadcast_nothrow_for _ _ _ _ _) as [[o s2] t2].
  - unfold send_any, priority_order, sorted_listeners. unfold_M.
    case_decide; simpl; [apply prefix_nil|].
    destruct (_sort_listeners _ _ _) as [l|e]; simpl; [|apply prefix_nil].
    pose proof (send_any_for_calls invoke l v s) as Hp.
    by destruct (send_any_for _ _ _ _) as [[o s2] t2].
Qed.

(** The state [broadcast_nothrow] leaves when handlers raise errors only. *)
Lemma broadcast_nothrow_state event v s :
  bus_inv (self_of s) →
  (∀ h s e, (invoke h v s).1 = Raise e → is_Exception e = true) →
  (broadcast_nothrow iter_set self_of invoke event v s).1.2 =
  (call_in_turn (priority_order iter_set (self_of s) (event_id event)) v s).2.
Proof using iter_set_elements.
  intros Hinv Hexc. rewrite broadcast_nothrow_eq by done.
  rewrite broadcast_nothrow_for_spec; [done|].
  intros e. apply (call_in_turn_outcomes invoke (fun e => is_Exception e = true)).
  exact Hexc.
Qed.

(** *** Properties of the dispatch engine *)

(** C1. Two handlers subscribed to the same event at priorities
    [p1 < p2]: the handler-ordering primitive [_sort_listeners] returns a
    list in ascending priority order in which the handler at [p1] stands
    before the handler at [p2], and under each of the four dispatch
    strategies every call of the handler at [p2] is preceded by a call of
    the handler at [p1]. *)
Theorem priority_order_respected (s : S) (event : Event) (payload : value)
    (h1 h2 : callable) (p1 p2 : Z) :
  bus_inv (self_of s) →
  _priorities (self_of s) !! (event_id event, h1) = Some p1 →
  _priorities (self_of s) !! (event_id event, h2) = Some p2 →
  p1 < p2 →
  (∃ l i j,
      _sort_listeners iter_set (self_of s) (event_id event) = Return l ∧
      StronglySorted (key_le fst) l ∧
      l !! i = Some (p1, h1) ∧ l !! j = Some (p2, h2) ∧ (i < j)%nat) ∧
  ∀ (st : strategy) (pre post : list callable),
    calls_of (trace_of iter_set self_of invoke st event payload s)
      = pre ++ h2 :: post →
    h1 ∈ pre.
Proof using iter_set_elements.
  intros Hinv Hp1 Hp2 Hlt.
  set (self := self_of s) in *. set (eid := event_id event) in *.
  destruct (sorted_listeners_inv iter_set iter_set_elements self eid Hinv) as (Hsorted & Hnodup & Hmem).
  assert (h1 ∈ handlers_of self eid) as Hh1
    by (apply (proj1 (bus_inv_alt self) Hinv); eauto).
  assert (h2 ∈ handlers_of self eid) as Hh2
    by (apply (proj1 (bus_inv_alt self) Hinv); eauto).
  assert ((p1, h1) ∈ sorted_listeners iter_set self eid) as Hin1 by (by apply Hmem).
  assert ((p2, h2) ∈ sorted_listeners iter_set self eid) as Hin2 by (by apply Hmem).
  apply list_elem_of_lookup in Hin1 as [i Hi], Hin2 as [j Hj].
  assert (i < j)%nat as Hij
    by (by apply (StronglySorted_lookup_lt fst (sorted_listeners iter_set self eid)
                    i j (p1, h1) (p2, h2))).
  split.
  - apply elem_of_handlers_of in Hh1 as (ls & Hls & _).
    exists (sorted_listeners iter_set self eid), i, j.
    split; [by apply (sorted_listeners_known iter_set iter_set_elements self eid ls)|done].
  - intros st pre post Hcalls.
    destruct (trace_of_calls st event payload s) as [k Hk].
    fold self eid in Hk. rewrite Hcalls in Hk.
    assert (priority_order iter_set self eid !! j = Some h2) as Hj'
      by (unfold priority_order; by rewrite list_lookup_fmap, Hj).
    assert (priority_order iter_set self eid !! i = Some h1) as Hi'
      by (unfold priority_order; by rewrite list_lookup_fmap, Hi).
    assert (priority_order iter_set self eid !! length pre = Some h2) as Hpre.
    { rewrite Hk, <-app_assoc. simpl. by apply list_lookup_middle. }
    assert (j = length pre) as -> by (by eapply NoDup_lookup).
    rewrite Hk, <-app_assoc, lookup_app_l in Hi' by done.
    by eapply list_elem_of_lookup_2.
Qed.



(** C4. [send_one] on an event with a display name.  With no handler
    registered (the event identifier may be unknown to the registry) it
    calls nothing, logs and raises [NoListenersError] with the display name
    in its message; with at least one handler it calls only the first
    handler in priority order, whose priority no other handler undercuts,
    and produces what that handler produces.  So [send_one] raises without
    calling a handler exactly when no handler is registered. *)
Theorem send_one_highest_priority (s : S) (event : Event) (n : string)
    (payload : value) :
  bus_inv (self_of s) →
  name event = Some n →
  let r := send_one iter_set self_of invoke event payload s in
  (handlers_of (self_of s) (event_id event) = ∅ →
     r = (Raise (NoListenersError ("No listeners for " +:+ n)), s,
          [Log (LogError ("No listeners for " +:+ n))])) ∧
  (handlers_of (self_of s) (event_id event) ≠ ∅ →
     ∃ h p,
       h ∈ handlers_of (self_of s) (event_id event) ∧
       _priorities (self_of s) !! (event_id event, h) = Some p ∧
       (∀ h' p', _priorities (self_of s) !! (event_id event, h') = Some p' → p <= p') ∧
       r = ((invoke h payload s).1, (invoke h payload s).2, [Call h payload])) ∧
  (calls_of r.2 = [] ↔ handlers_of (self_of s) (event_id event) = ∅).
Proof using iter_set_elements.
  intros Hinv Hn r.
  set (self := self_of s) in *. set (eid := event_id event) in *.
  destruct (sorted_listeners_inv iter_set iter_set_elements self eid Hinv) as (Hsorted & Hnodup & Hmem).
  assert (r = match sorted_listeners iter_set self eid with
              | [] => (Raise (NoListenersError ("No listeners for " +:+ n)), s,
                       [Log (LogError ("No listeners for " +:+ n))])
              | (_, listener) :: _ =>
                  ((invoke listener payload s).1, (invoke listener payload s).2,
                   [Call listener payload])
              end) as Hr by (by apply send_one_eq).
  destruct (sorted_listeners iter_set self eid) as [|[p h] l] eqn:Hl.
  - assert (handlers_of self eid = ∅) as Hempty.
    { apply set_eq. intros h. split; [|set_solver]. intros Hh.
      assert (is_Some (_priorities self !! (eid, h))) as [p Hp]
        by (by apply (proj1 (bus_inv_alt self))).
      assert ((p, h) ∈ ([] : list (Z * callable))) by (by apply Hmem).
      set_solver. }
    split; [done|]. split; [done|]. by rewrite Hr.
  - assert (h ∈ handlers_of self eid ∧ _priorities self !! (eid, h) = Some p)
      as [Hh Hp] by (apply Hmem; set_solver).
    split; [set_solver|]. split.
    + intros _. exists h, p. split; [done|]. split; [done|]. split; [|done].
      intros h' p' Hp'.
      assert (h' ∈ handlers_of self eid) as Hh'
        by (apply (proj1 (bus_inv_alt self) Hinv); eauto).
      assert ((p', h') ∈ (p, h) :: l) as Hin by (by apply Hmem).
      apply StronglySorted_inv in Hsorted as [_ Hall].
      apply elem_of_cons in Hin as [[= -> ->]|Hin]; [lia|].
      rewrite Forall_forall in Hall. by apply (Hall (p', h')).
    + rewrite Hr. simpl. split; [done|set_solver].
Qed.

(** C5. [send_any] calls the handlers in ascending priority order: the
    order [hs] in which it calls them lists the handlers registered for the
    event, each once, and no handler stands in it before one of smaller
    priority.  If every handler returns [None], or none is registered (the
    event identifier may be unknown), it returns [None].  The first handler
    in that order that returns a result other than [None] ends the
    iteration with that result, and the first handler that raises an error
    ends it with that error, logged; in both cases nothing is called after
    that handler. *)
Theorem send_any_first_result (s : S) (event : Event) (payload : value) :
  bus_inv (self_of s) →
  let hs := priority_order iter_set (self_of s) (event_id event) in
  hs ≡ₚ elements (handlers_of (self_of s) (event_id event)) ∧
  ascending_priority (self_of s) (event_id event) hs ∧
  (∀ s',
      call_in_turn hs payload s = (replicate (length hs) (Return VNone), s') →
      send_any iter_set self_of invoke event payload s
        = (Return VNone, s', Calls payload hs)) ∧
  (handlers_of (self_of s) (event_id event) = ∅ →
      send_any iter_set self_of invoke event payload s = (Return VNone, s, [])) ∧
  (∀ pre h post s1 result s2,
      hs = pre ++ h :: post →
      call_in_turn pre payload s = (replicate (length pre) (Return VNone), s1) →
      invoke h payload s1 = (Return result, s2) →
      result ≠ VNone →
      send_any iter_set self_of invoke event payload s
        = (Return result, s2, Calls payload (pre ++ [h]))) ∧
  (∀ pre h post s1 e s2,
      hs = pre ++ h :: post →
      call_in_turn pre payload s = (replicate (length pre) (Return VNone), s1) →
      invoke h payload s1 = (Raise e, s2) →
      is_Exception e = true →
      send_any iter_set self_of invoke event payload s
        = (Raise e, s2,
           Calls payload pre ++ [Call h payload; Log (LogException h payload e)])).
Proof using iter_set_elements.
  intros Hinv hs.
  assert (∀ pre h post s1 o s2,
            hs = pre ++ h :: post →
            call_in_turn pre payload s = (replicate (length pre) (Return VNone), s1) →
            invoke h payload s1 = (o, s2) →
            o ≠ Return VNone →
            send_any iter_set self_of invoke event payload s =
            (o, s2,
             Calls payload pre ++ Call h payload ::
               match o with
               | Raise e => if is_Exception e then [Log (LogException h payload e)] else []
               | Return _ => []
               end)) as Hfirst.
  { intros pre h post s1 o s2 Hhs Hrun Hh Ho.
    rewrite send_any_eq by done.
    unfold hs, priority_order in Hhs.
    apply fmap_app_inv in Hhs as (lpre & lpost & -> & Hpost & Hl).
    destruct lpost as [|[p h'] lpost]; [done|].
    csimpl in Hpost. injection Hpost as -> ->. rewrite Hl.
    rewrite length_fmap in Hrun.
    by apply (send_any_for_first invoke lpre p h' lpost payload s s1 o s2). }
  split; [by apply (priority_order_elements iter_set iter_set_elements)|].
  split; [by apply (priority_order_ascending iter_set iter_set_elements)|].
  split; [|split; [|split]].
  - intros s' Hrun. rewrite send_any_eq by done.
    apply send_any_for_all_None.
    unfold hs, priority_order in Hrun. by rewrite length_fmap in Hrun.
  - intros Hempty. rewrite send_any_eq by done.
    assert (hs = []) as Hnil.
    { apply elem_of_nil_inv. intros h Hh.
      apply (elem_of_priority_order iter_set iter_set_elements) in Hh; [|done]. set_solver. }
    unfold hs, priority_order in Hnil. apply fmap_nil_inv in Hnil.
    by rewrite Hnil.
  - intros pre h post s1 result s2 Hhs Hrun Hh Hres.
    rewrite (Hfirst pre h post s1 (Return result) s2 Hhs Hrun Hh) by congruence.
    by rewrite fmap_app.
  - intros pre h post s1 e s2 Hhs Hrun Hh He.
    rewrite (Hfirst pre h post s1 (Raise e) s2 Hhs Hrun Hh) by congruence.
    by rewrite He.
Qed.

(** C9. [broadcast] on an event without subscribers, whether its
    identifier is registered with an empty set or unknown to the registry,
    returns the empty list: it raises nothing, calls nothing, logs nothing
    and leaves the state as it was. *)
Theorem broadcast_no_subscribers (s : S) (event : Event) (payload : value) :
  handlers_of (self_of s) (event_id event) = ∅ →
  broadcast iter_set self_of invoke event payload s = (Return [], s, []).
Proof using iter_set_elements.
  unfold handlers_of, broadcast. unfold_M. intros Hempty.
  destruct (listeners (self_of s) !! event_id event) as [ls|] eqn:Hls.
  - simpl in Hempty. subst ls. rewrite decide_False by done.
    unfold _sort_listeners. rewrite Hls.
    assert (iter_set ∅ = []) as ->.
    { apply Permutation_nil_r. by rewrite iter_set_elements, elements_empty. }
    done.
  - by rewrite decide_True.
Qed.

(** C10. On a registry in which a callable is in the listener set of an
    event identifier exactly when the pair has a recorded priority,
    [subscribe] (called directly or through the decorator it returns) and
    [unsubscribe] give a registry with the same property, [unsubscribe]
    returns normally, and [_sort_listeners] returns for every registered
    event identifier: its priority lookups do not fail. *)
Theorem registry_invariant_kept (self : EventBus) :
  bus_inv self →
  (∀ event callback priority,
      bus_inv (subscribe self event callback priority).1 ∧
      ∀ self' cb, bus_inv self' →
                  bus_inv ((subscribe self event callback priority).2 cb self')) ∧
  (∀ event callback,
      (unsubscribe self event callback).1 = Return tt ∧
      bus_inv (unsubscribe self event callback).2) ∧
  (∀ eid ls,
      listeners self !! eid = Some ls →
      ∃ l, _sort_listeners iter_set self eid = Return l ∧
           ∀ h, h ∈ l.*2 ↔ h ∈ ls).
Proof using iter_set_elements.
  intros Hinv. split; [|split].
  - intros event callback priority. split.
    + by apply bus_inv_subscribe.
    + intros self' cb Hinv'. simpl. unfold decorator.
      by apply bus_inv_subscribe_callback.
  - intros event callback.
    destruct (unsubscribe_inv self event callback Hinv) as (? & ? & _). done.
  - intros eid ls Hls.
    exists (sorted_listeners iter_set self eid).
    split; [by apply (sorted_listeners_known iter_set iter_set_elements self eid ls)|].
    intros h. fold (priority_order iter_set self eid).
    rewrite (elem_of_priority_order iter_set iter_set_elements) by done.
    unfold handlers_of. by rewrite Hls.
Qed.
End DispatchFacts.

(** ** Event types *)

Section EventTypes.
Variable uuid4_draw : nat -> UUID.

(** C6. The display names the three lifecycle event classes carry in
    events.py: ['on-start'] for [OnStart], ['on-stop'] for [OnStarted] and
    ['on-exit'] for [OnExit]. *)
Theorem lifecycle_event_names :
  name (OnStart uuid4_draw) = Some "on-start" ∧
  name (OnStarted uuid4_draw) = Some "on-stop" ∧
  name (OnExit uuid4_draw) = Some "on-exit".
Proof. done. Qed.

Lemma define_all_lookup names calls i e :
  (define_all uuid4_draw names calls).1 !! i = Some e →
  event_id e = uuid4_draw (calls + i)%nat ∧ names !! i = Some (name e).
Proof.
  revert calls i. induction names as [|n names IH]; intros calls i; simpl.
  - by rewrite lookup_nil.
  - destruct (define_all uuid4_draw names (S calls)) as [es calls2] eqn:Hrest.
    destruct i as [|i]; simpl.
    + intros [= <-]. simpl. by rewrite Nat.add_0_r.
    + intros Hi. specialize (IH (S calls) i). rewrite Hrest in IH.
      destruct (IH Hi) as [-> ->]. split; [f_equal; lia|done].
Qed.

Hypothesis uuid4_fresh : ∀ i j, uuid4_draw i = uuid4_draw j → i = j.

(** C8. When [uuid.uuid4] does not return the same value twice: two
    distinct class statements of event types get different identifiers,
    whatever their display names, equal or not; and a subscription made
    against one of the two types leaves the listener set and the
    priorities of the other type as they were. *)
Theorem event_identifiers_fresh (names : list (option string)) (calls : nat)
    (i j : nat) (ei ej : Event) :
  (define_all uuid4_draw names calls).1 !! i = Some ei →
  (define_all uuid4_draw names calls).1 !! j = Some ej →
  i ≠ j →
  event_id ei ≠ event_id ej ∧
  ∀ (self : EventBus) (callback : callable) (priority : Z),
    let self' := (subscribe self ei (Some callback) priority).1 in
    listeners self' !! event_id ej = listeners self !! event_id ej ∧
    (∀ h, _priorities self' !! (event_id ej, h) = _priorities self !! (event_id ej, h)) ∧
    callback ∈ handlers_of self' (event_id ei).
Proof using uuid4_fresh.
  intros Hi Hj Hne.
  apply define_all_lookup in Hi as [Hidi _], Hj as [Hidj _].
  assert (event_id ei ≠ event_id ej) as Hid.
  { rewrite Hidi, Hidj. intros Heq%uuid4_fresh. lia. }
  split; [done|]. intros self callback priority. simpl. split; [|split].
  - by rewrite lookup_insert_ne.
  - intros h. rewrite lookup_insert_ne; [done|congruence].
  - rewrite handlers_of_subscribe_callback, decide_True by done. set_solver.
Qed.
End EventTypes.

(** ** The Subscriber binder *)

Section BinderLoops.

Lemma elem_of_recorded self ms event h :
  (event, h) ∈ recorded self ms ↔
  ∃ func priority, (func, Some (event, priority)) ∈ ms ∧ h = BoundMethod self func.
Proof.
  unfold recorded. rewrite list_elem_of_omap. split.
  - intros ([func [[e p]|]] & Hin & Heq); simplify_eq/=. eauto.
  - intros (func & p & Hin & ->). by exists (func, Some (event, p)).
Qed.

(** What the loop of [on_start] does. *)
Lemma on_start_for_spec self ms w :
  bus_inv (w_bus w) →
  bus_inv (w_bus (on_start_for self ms w)) ∧
  (∀ eid h,
      h ∈ handlers_of (w_bus (on_start_for self ms w)) eid ↔
      h ∈ handlers_of (w_bus w) eid ∨
      ∃ func event priority,
        (func, Some (event, priority)) ∈ ms ∧ event_id event = eid ∧
        h = BoundMethod self func) ∧
  (∀ o, objects (on_start_for self ms w) !! o =
        if decide (self = o)
        then (fun obj => {| members := members obj;
                            __subscriptions := __subscriptions obj ++ recorded self ms |})
               <$> objects w !! self
        else objects w !! o).
Proof.
  revert w. induction ms as [|[func [[event priority]|]] ms IH]; intros w Hinv; simpl.
  - split; [done|]. split.
    + intros eid h. split; [by left|].
      intros [?|(? & ? & ? & Hin & _)]; [done|]. by apply elem_of_nil in Hin.
    + intros o. case_decide as Ho; [subst o|done].
      destruct (objects w !! self) as [[ms' subs]|]; simpl; [|done].
      by rewrite app_nil_r.
  - edestruct IH as (Hinv' & Hh & Hobj); [|split; [exact Hinv'|split]].
    + simpl. by apply bus_inv_subscribe_callback.
    + intros eid h. rewrite Hh. simpl. rewrite handlers_of_subscribe_callback.
      setoid_rewrite elem_of_cons. case_decide; [|naive_solver].
      rewrite elem_of_union, elem_of_singleton. naive_solver.
    + intros o. rewrite Hobj. simpl. rewrite lookup_alter_eq.
      case_decide; [|by rewrite lookup_alter_ne].
      destruct (objects w !! self) as [[ms' subs]|]; simpl; [|done].
      by rewrite <-app_assoc.
  - destruct (IH w Hinv) as (Hinv' & Hh & Hobj). split; [done|]. split.
    + intros eid h. rewrite Hh. setoid_rewrite elem_of_cons. naive_solver.
    + done.
Qed.

(** What the loop of [on_exit] does on a registry that satisfies the
    invariant. *)
Lemma on_exit_for_spec subs w :
  bus_inv (w_bus w) →
  (on_exit_for subs w).1 = Return VNone ∧
  bus_inv (w_bus (on_exit_for subs w).2) ∧
  objects (on_exit_for subs w).2 = objects w ∧
  (∀ eid h,
      h ∈ handlers_of (w_bus (on_exit_for subs w).2) eid ↔
      h ∈ handlers_of (w_bus w) eid ∧
      ¬ ∃ event, (event, h) ∈ subs ∧ event_id event = eid).
Proof.
  revert w. induction subs as [|[event member] subs IH]; intros w Hinv; simpl.
  - split; [done|]. split; [done|]. split; [done|].
    intros eid h. split; [|naive_solver]. intros Hh. split; [done|].
    intros (? & Hin & _). by apply elem_of_nil in Hin.
  - destruct (unsubscribe_inv (w_bus w) event member Hinv) as (Hret & Hinv1 & Hh1).
    destruct (unsubscribe (w_bus w) event member) as [[[]|e] bus1]; simpl in *; [|done].
    destruct (IH {| w_bus := bus1; objects := objects w |} Hinv1)
      as (Hret' & Hinv' & Hobj & Hh).
    split; [done|]. split; [done|]. split; [done|].
    intros eid h. rewrite Hh. simpl. rewrite Hh1.
    setoid_rewrite elem_of_cons. case_decide.
    + rewrite elem_of_difference, elem_of_singleton. naive_solver.
    + naive_solver.
Qed.

Lemma on_exit_for_raises subs w e :
  (on_exit_for subs w).1 = Raise e → e = KeyError.
Proof.
  revert w. induction subs as [|[event member] subs IH]; intros w; simpl; [done|].
  destruct (unsubscribe (w_bus w) event member) as [[[]|e'] bus1] eqn:Hun.
  - apply IH.
  - simpl. intros [= <-]. unfold unsubscribe in Hun.
    destruct (listeners (w_bus w) !! event_id event); [|done].
    case_decide; [|done].
    by destruct (_priorities _ !! _); simplify_eq/=.
Qed.

End BinderLoops.

Section BinderCalls.
Variable user : callable -> value -> outcome value.

Local Abbreviation invoke := (subscriber.invoke user).

(** The three ways a call goes. *)
Lemma invoke_cases h v w :
  (∃ o obj, h = BoundMethod o "on_start" ∧ objects w !! o = Some obj ∧
            invoke h v w = (Return VNone, on_start_for o (members obj) w)) ∨
  (∃ o obj, h = BoundMethod o "on_exit" ∧ objects w !! o = Some obj ∧
            invoke h v w = on_exit_for (__subscriptions obj) w) ∨
  invoke h v w = (user h v, w).
Proof.
  unfold subscriber.invoke. destruct h as [id|o func]; [by right; right|].
  destruct (objects w !! o) as [obj|] eqn:Hobj; [|by right; right].
  case_decide as Hs; [subst func|].
  { left. exists o, obj. unfold on_start. by rewrite Hobj. }
  case_decide as He; [subst func|by right; right].
  right; left. exists o, obj. unfold on_exit. by rewrite Hobj.
Qed.

End BinderCalls.

Section BinderFacts.
Variable uuid4_draw : nat -> UUID.
Variable iter_set : gset callable -> list callable.
Hypothesis iter_set_elements : ∀ s, iter_set s ≡ₚ elements s.
Variable user : callable -> value -> outcome value.
Hypothesis user_errors : ∀ h v e, user h v = Raise e → is_Exception e = true.

Local Abbreviation invoke := (subscriber.invoke user).

Lemma invoke_raises h v w e :
  (invoke h v w).1 = Raise e → is_Exception e = true.
Proof using user_errors.
  destruct (invoke_cases user h v w)
    as [(o & obj & _ & _ & ->) | [(o & obj & _ & _ & ->) | ->]]; simpl.
  - done.
  - by intros ->%on_exit_for_raises.
  - apply user_errors.
Qed.

(** Every call keeps the invariant of the binder and the members of the
    object. *)
Lemma invoke_keeps_inv self ms h v w :
  binder_inv uuid4_draw self w →
  members <$> objects w !! self = Some ms →
  binder_inv uuid4_draw self (invoke h v w).2 ∧
  members <$> objects (invoke h v w).2 !! self = Some ms.
Proof.
  intros (Hinv & Hwf & obj & Hobj & Hexit & Hstart & HJ) Hms.
  destruct (invoke_cases user h v w)
    as [(o & obj' & _ & Hobj' & ->) | [(o & obj' & _ & Hobj' & ->) | ->]]; simpl.
  - destruct (on_start_for_spec o (members obj') w Hinv) as (Hinv' & Hh & Hobjs).
    destruct (Hwf o obj' Hobj') as [Hwf1 Hwf2].
    split; [split; [done|split]|].
    + intros o1 obj1 Hobj1. rewrite Hobjs in Hobj1.
      case_decide as Ho; [subst o1|by apply Hwf].
      rewrite Hobj' in Hobj1. simplify_eq/=. split; [done|].
      intros event h0 [Hold|Hnew]%elem_of_app; [by eapply Hwf2|].
      apply elem_of_recorded in Hnew as (func & p & Hin & ->).
      exists func. split; [done|]. by eapply Hwf1.
    + exists (if decide (o = self)
              then {| members := members obj;
                      __subscriptions := __subscriptions obj
                                         ++ recorded self (members obj) |}
              else obj).
      split; [|split; [|split]].
      * rewrite Hobjs. case_decide as Ho; [subst o|done].
        rewrite Hobj. rewrite Hobj in Hobj'. by simplify_eq.
      * apply Hh. by left.
      * intros [Hold|(func & event & p & Hin & _ & [= -> <-])]%Hh; [done|].
        eapply Hwf1; [done|by left].
      * intros func event priority Hin [Hold|Hnew]%Hh.
        -- assert ((func, Some (event, priority)) ∈ members obj) as Hin'
             by (by case_decide).
           destruct (HJ func event priority Hin' Hold) as (event' & Hrec & Hid).
           exists event'. split; [|done].
           case_decide; [|done]. simpl. apply elem_of_app. by left.
        -- destruct Hnew as (func' & event0 & p0 & Hin0 & Hid & [= -> ->]).
           rewrite Hobj in Hobj'. simplify_eq. rewrite decide_True by done. simpl.
           exists event0. split; [|done]. apply elem_of_app. right.
           apply elem_of_recorded. eauto.
    + rewrite Hobjs. case_decide as Ho; [subst o|done].
      rewrite Hobj in Hobj'. simplify_eq. by rewrite Hobj in *.
  - destruct (on_exit_for_spec (__subscriptions obj') w Hinv)
      as (Hret & Hinv' & Hobjs & Hh).
    destruct (Hwf o obj' Hobj') as [Hwf1 Hwf2].
    split; [split; [done|split]|].
    + intros o1 obj1 Hobj1. rewrite Hobjs in Hobj1. by apply Hwf.
    + exists obj. rewrite Hobjs. split; [done|]. split; [|split].
      * apply Hh. split; [done|]. intros (event & Hrec & _).
        destruct (Hwf2 _ _ Hrec) as (func & [= -> <-] & Hnl). apply Hnl. by right.
      * intros [Hold _]%Hh. done.
      * intros func event priority Hin [Hold _]%Hh. by eapply HJ.
    + by rewrite Hobjs.
  - split; [|done]. split; [done|]. split; [done|]. by exists obj.
Qed.

(** The [on_exit] of the binder leaves none of its recorded pairs
    registered. *)
Lemma invoke_on_exit_unregisters self v w :
  binder_inv uuid4_draw self w →
  binder_unregistered self (invoke (BoundMethod self "on_exit") v w).2.
Proof.
  intros (Hinv & Hwf & obj & Hobj & Hexit & Hstart & HJ).
  unfold subscriber.invoke. rewrite Hobj.
  rewrite decide_False by done. rewrite decide_True by done.
  unfold on_exit. rewrite Hobj.
  destruct (on_exit_for_spec (__subscriptions obj) w Hinv)
    as (Hret & Hinv' & Hobjs & Hh).
  intros obj1 event h Hobj1 Hrec [_ Hnot]%Hh.
  rewrite Hobjs, Hobj in Hobj1. simplify_eq. apply Hnot. eauto.
Qed.

(** A call of anything but the [on_start] of the binder registers none of
    its recorded pairs. *)
Lemma invoke_keeps_unregistered self h v w :
  h ≠ BoundMethod self "on_start" →
  binder_inv uuid4_draw self w →
  binder_unregistered self w →
  binder_unregistered self (invoke h v w).2.
Proof.
  intros Hne (Hinv & Hwf & obj & Hobj & Hexit & Hstart & HJ) HK.
  destruct (invoke_cases user h v w)
    as [(o & obj' & -> & Hobj' & ->) | [(o & obj' & _ & Hobj' & ->) | ->]]; simpl.
  - destruct (on_start_for_spec o (members obj') w Hinv) as (Hinv' & Hh & Hobjs).
    assert (o ≠ self) as Ho by congruence.
    intros obj1 event h Hobj1 Hrec. rewrite Hobjs in Hobj1.
    rewrite decide_False in Hobj1 by done.
    intros [Hold|(func & event0 & p0 & _ & _ & ->)]%Hh.
    + by eapply HK.
    + destruct (Hwf self obj1 Hobj1) as [_ Hwf2].
      destruct (Hwf2 _ _ Hrec) as (func' & [= -> _] & _). done.
  - destruct (on_exit_for_spec (__subscriptions obj') w Hinv)
      as (Hret & Hinv' & Hobjs & Hh).
    intros obj1 event h0 Hobj1 Hrec [Hold _]%Hh. rewrite Hobjs in Hobj1.
    by eapply HK.
  - done.
Qed.

(** No call removes a lifecycle method of the binder from the registry. *)
Lemma invoke_keeps_lifecycle self h v w eid func :
  binder_inv uuid4_draw self w →
  lifecycle_method func →
  BoundMethod self func ∈ handlers_of (w_bus w) eid →
  BoundMethod self func ∈ handlers_of (w_bus (invoke h v w).2) eid.
Proof.
  intros (Hinv & Hwf & _) Hlc Hreg.
  destruct (invoke_cases user h v w)
    as [(o & obj' & _ & Hobj' & ->) | [(o & obj' & _ & Hobj' & ->) | ->]]; simpl.
  - destruct (on_start_for_spec o (members obj') w Hinv) as (_ & Hh & _).
    apply Hh. by left.
  - destruct (on_exit_for_spec (__subscriptions obj') w Hinv) as (_ & _ & _ & Hh).
    apply Hh. split; [done|]. intros (event & Hrec & _).
    destruct (Hwf o obj' Hobj') as [_ Hwf2].
    destruct (Hwf2 _ _ Hrec) as (func' & [= -> <-] & Hnl). done.
  - done.
Qed.

(** C7, as the code has it.  A [Subscriber] bound to a bus as its
    constructor leaves it, in a world where the other handlers raise
    errors only and leave the registry alone: after the bus fires the
    start event and then the exit event, none of the decorated methods of
    the subscriber is registered for its event and none has a priority
    recorded, while the lifecycle methods [on_start] and [on_exit] of the
    subscriber are still registered wherever they were. *)
Theorem binder_unsubscribes_on_exit (self : nat) (w : World) :
  binder_inv uuid4_draw self w →
  let w1 := (start uuid4_draw iter_set w_bus invoke w).1.2 in
  let w2 := (stop uuid4_draw iter_set w_bus invoke w1).1.2 in
  (∀ obj func event priority,
      objects w !! self = Some obj →
      (func, Some (event, priority)) ∈ members obj →
      (BoundMethod self func ∉ handlers_of (w_bus w2) (event_id event)) ∧
      _priorities (w_bus w2) !! (event_id event, BoundMethod self func) = None) ∧
  (∀ eid func,
      lifecycle_method func →
      BoundMethod self func ∈ handlers_of (w_bus w) eid →
      BoundMethod self func ∈ handlers_of (w_bus w2) eid).
Proof using iter_set_elements user_errors.
  intros Hw w1 w2.
  assert (∃ ms, members <$> objects w !! self = Some ms) as [ms Hms].
  { destruct Hw as (_ & _ & obj & Hobj & _). rewrite Hobj. by eexists. }
  set (P := fun w' =>
              (binder_inv uuid4_draw self w' ∧
               members <$> objects w' !! self = Some ms) ∧
              ∀ eid func,
                lifecycle_method func →
                BoundMethod self func ∈ handlers_of (w_bus w) eid →
                BoundMethod self func ∈ handlers_of (w_bus w') eid).
  assert (∀ h w', P w' → P (invoke h VNone w').2) as Hkeep.
  { intros h w' [[Hinv' Hms'] Hlc]. split; [by apply invoke_keeps_inv|].
    intros eid func Hfunc Hreg. apply invoke_keeps_lifecycle; [done|done|].
    by apply Hlc. }
  assert (P w) as HPw by (split; [by split|done]).
  assert (P w1) as Hw1.
  { unfold w1, start, bind, log.
    pose proof (broadcast_state iter_set w_bus invoke P (OnStart uuid4_draw)
                  VNone w Hkeep HPw) as HP.
    by destruct (broadcast _ _ _ _ _ _) as [[o s2] t]. }
  assert (w2 = (call_in_turn invoke
                  (priority_order iter_set (w_bus w1) (event_id (OnExit uuid4_draw)))
                  VNone w1).2) as Hw2.
  { unfold w2, stop, bind, log.
    rewrite <-(broadcast_nothrow_state iter_set iter_set_elements w_bus invoke
                 (OnExit uuid4_draw) VNone w1);
      [|by destruct Hw1 as [[[? _] _] _]|intros h s e; apply invoke_raises].
    by destruct (broadcast_nothrow _ _ _ _ _ _) as [[o s2] t]. }
  pose proof Hw1 as [[Hinv1 Hms1] _].
  pose proof Hinv1 as (Hbus1 & Hwf1 & obj1 & Hobj1 & Hexit1 & Hstart1 & HJ1).
  set (hs := priority_order iter_set (w_bus w1) (event_id (OnExit uuid4_draw))) in *.
  assert (BoundMethod self "on_exit" ∈ hs) as Hin
    by (by apply (elem_of_priority_order iter_set iter_set_elements)).
  assert (BoundMethod self "on_start" ∉ hs) as Hnotin
    by (intros Hmem;
        by apply (elem_of_priority_order iter_set iter_set_elements) in Hmem).
  apply list_elem_of_split in Hin as (pre & post & Hhs).
  rewrite Hhs, call_in_turn_app_state, call_in_turn_cons_state in Hw2.
  set (wa := (call_in_turn invoke pre VNone w1).2) in *.
  set (wb := (invoke (BoundMethod self "on_exit") VNone wa).2) in *.
  assert (P wa) as Hwa
    by (apply (call_in_turn_state invoke P); [intros; by apply Hkeep|done]).
  assert (P wb ∧ binder_unregistered self wb) as Hwb.
  { split; [by apply Hkeep|]. apply invoke_on_exit_unregisters.
    by destruct Hwa as [[? _] _]. }
  assert (P w2 ∧ binder_unregistered self w2) as [[[Hinv2 Hms2] Hlc2] HK2].
  { rewrite Hw2.
    apply (call_in_turn_state invoke (fun w => P w ∧ binder_unregistered self w));
      [|done].
    intros h w0 Hh [HP HK]. split; [by apply Hkeep|].
    apply invoke_keeps_unregistered; [|by destruct HP as [[? _] _]|done].
    intros ->. apply Hnotin. rewrite Hhs. set_solver. }
  destruct Hinv2 as (Hbus2 & Hwf2 & obj2 & Hobj2 & Hexit2 & Hstart2 & HJ2).
  split; [|done].
  intros obj func event priority Hobj Hmem.
  assert (members obj2 = members obj) as Hsame.
  { rewrite Hobj in Hms. rewrite Hobj2 in Hms2. simpl in *. congruence. }
  assert (BoundMethod self func ∉ handlers_of (w_bus w2) (event_id event)) as Hgone.
  { intros Hreg. rewrite <-Hsame in Hmem.
    destruct (HJ2 func event priority Hmem Hreg) as (event' & Hrec & Hid).
    apply (HK2 obj2 event' (BoundMethod self func) Hobj2 Hrec). by rewrite Hid. }
  split; [done|].
  apply eq_None_not_Some. intros Hsome. apply Hgone.
  by apply (proj1 (bus_inv_alt (w_bus w2)) Hbus2).
Qed.
End BinderFacts.

Section BinderInit.
Variable uuid4_draw : nat -> UUID.

(** A [Subscriber] constructed on a new bus is bound as the property
    above requires. *)
Lemma binder_inv_init self ms :
  event_id (OnStart uuid4_draw) ≠ event_id (OnExit uuid4_draw) →
  (∀ func info, (func, Some info) ∈ ms → ¬ lifecycle_method func) →
  binder_inv uuid4_draw self
    (subscriber.__init__ uuid4_draw self ms
       {| w_bus := bus.__init__ uuid4_draw; objects := ∅ |}).
Proof.
  intros Hids Hms.
  assert (∀ eid, handlers_of (bus.__init__ uuid4_draw) eid = ∅) as Hinit.
  { intros eid. unfold handlers_of.
    destruct (listeners _ !! eid) as [ls|] eqn:Hls; [|done].
    by apply init_listeners_empty in Hls. }
  split; [|split].
  - simpl. do 2 apply bus_inv_subscribe_callback. apply bus_inv_init.
  - intros o obj. simpl. rewrite lookup_insert_Some, lookup_empty.
    intros [[<- <-]|[_ ?]]; [|done]. simpl. split; [done|].
    intros event h Hin. by apply elem_of_nil in Hin.
  - eexists. simpl. rewrite lookup_insert_eq. split; [done|]. simpl.
    split; [|split].
    + rewrite handlers_of_subscribe_callback, decide_True by done. set_solver.
    + rewrite !handlers_of_subscribe_callback, decide_True by done.
      rewrite decide_False, Hinit by done. set_solver.
    + intros func event priority Hin Hreg. exfalso.
      apply (Hms func (event, priority) Hin).
      rewrite !handlers_of_subscribe_callback, Hinit in Hreg.
      unfold lifecycle_method. repeat case_decide; set_unfold; naive_solver.
Qed.
End BinderInit.

(** ** The properties on the registries of the tests *)

Lemma elements_enumerates (s : gset callable) : elements s ≡ₚ elements s.
Proof. reflexivity. Qed.

Lemma test_draw_fresh (i j : nat) : test_draw i = test_draw j → i = j.
Proof. apply Nat2N.inj. Qed.


Lemma test_user_errors h v e : test_user h v = Raise e → is_Exception e = true.
Proof. unfold test_user. by destruct v. Qed.

Lemma priority_bus_inv : bus_inv priority_bus.
Proof. do 2 apply bus_inv_subscribe_callback. apply bus_inv_init. Qed.


Lemma optional_bus_inv : bus_inv optional_bus.
Proof. do 3 apply bus_inv_subscribe_callback. apply bus_inv_init. Qed.

Lemma priority_order_respected_witness :
  bus_inv priority_bus ∧
  _priorities priority_bus !! (event_id TestEvent, Function 2) = Some 40 ∧
  _priorities priority_bus !! (event_id TestEvent, Function 1) = Some 60 ∧
  40 < 60 ∧
  (∃ l i j,
      _sort_listeners elements priority_bus (event_id TestEvent) = Return l ∧
      StronglySorted (key_le fst) l ∧
      l !! i = Some (40, Function 2) ∧ l !! j = Some (60, Function 1) ∧ (i < j)%nat) ∧
  ∀ (st : strategy) (pre post : list callable),
    calls_of (trace_of elements id test_handlers st TestEvent (VInt 2) priority_bus)
      = pre ++ Function 1 :: post →
    Function 2 ∈ pre.
Proof.
  split; [exact priority_bus_inv|].
  split; [reflexivity|]. split; [reflexivity|]. split; [lia|].
  apply (priority_order_respected elements elements_enumerates id test_handlers
           priority_bus TestEvent (VInt 2) (Function 2) (Function 1) 40 60).
  - exact priority_bus_inv.
  - reflexivity.
  - reflexivity.
  - lia.
Defined.



Lemma send_one_highest_priority_witness :
  bus_inv priority_bus ∧
  name TestEvent = Some "test-event" ∧
  handlers_of priority_bus (event_id TestEvent) ≠ ∅ ∧
  ∃ h p,
    h ∈ handlers_of priority_bus (event_id TestEvent) ∧
    _priorities priority_bus !! (event_id TestEvent, h) = Some p ∧
    (∀ h' p', _priorities priority_bus !! (event_id TestEvent, h') = Some p' → p <= p') ∧
    send_one elements id test_handlers TestEvent (VInt 2) priority_bus
      = ((test_handlers h (VInt 2) priority_bus).1,
         (test_handlers h (VInt 2) priority_bus).2, [Call h (VInt 2)]).
Proof.
  assert (handlers_of priority_bus (event_id TestEvent) ≠ ∅) as Hne.
  { intros Hempty.
    assert (Function 1 ∈ handlers_of priority_bus (event_id TestEvent)) as Hin
      by reflexivity.
    rewrite Hempty in Hin. exact (not_elem_of_empty (Function 1) Hin). }
  split; [exact priority_bus_inv|]. split; [reflexivity|]. split; [exact Hne|].
  destruct (send_one_highest_priority elements elements_enumerates id test_handlers
              priority_bus TestEvent "test-event" (VInt 2) priority_bus_inv eq_refl)
    as (_ & Hsome & _).
  exact (Hsome Hne).
Defined.

Lemma send_any_first_result_witness :
  bus_inv optional_bus ∧
  elements (handlers_of optional_bus (event_id TestEventOptional))
    = [Function 4; Function 5; Function 1] ∧
  send_any elements id test_handlers TestEventOptional (VInt 2) optional_bus
    = (Return (VInt 2), optional_bus,
       [Call (Function 4) (VInt 2); Call (Function 1) (VInt 2)]).
Proof.
  split; [exact optional_bus_inv|]. split; [reflexivity|].
  destruct (send_any_first_result elements elements_enumerates id test_handlers
              optional_bus TestEventOptional (VInt 2) optional_bus_inv)
    as (_ & _ & _ & _ & Hfirst & _).
  rewrite (Hfirst [Function 4] (Function 1) [Function 5] optional_bus (VInt 2)
             optional_bus);
    [reflexivity|reflexivity|reflexivity|reflexivity|discriminate].
Defined.

Lemma broadcast_no_subscribers_witness :
  handlers_of priority_bus (event_id TestEventOptional) = ∅ ∧
  broadcast elements id test_handlers TestEventOptional (VInt 2) priority_bus
    = (Return [], priority_bus, []).
Proof.
  split; [reflexivity|].
  apply (broadcast_no_subscribers elements elements_enumerates id test_handlers
           priority_bus TestEventOptional (VInt 2)).
  reflexivity.
Defined.

Lemma registry_invariant_kept_witness :
  bus_inv priority_bus ∧
  (∀ event callback priority,
      bus_inv (subscribe priority_bus event callback priority).1 ∧
      ∀ self' cb, bus_inv self' →
                  bus_inv ((subscribe priority_bus event callback priority).2 cb self')) ∧
  (∀ event callback,
      (unsubscribe priority_bus event callback).1 = Return tt ∧
      bus_inv (unsubscribe priority_bus event callback).2) ∧
  (∀ eid ls,
      listeners priority_bus !! eid = Some ls →
      ∃ l, _sort_listeners elements priority_bus eid = Return l ∧
           ∀ h, h ∈ l.*2 ↔ h ∈ ls).
Proof.
  split; [exact priority_bus_inv|].
  exact (registry_invariant_kept elements elements_enumerates priority_bus
           priority_bus_inv).
Defined.

Lemma event_identifiers_fresh_witness :
  (define_all test_draw [Some "test-event"; Some "test-event"] 4).1 !! 0%nat
    = Some TestEvent ∧
  (define_all test_draw [Some "test-event"; Some "test-event"] 4).1 !! 1%nat
    = Some {| name := Some "test-event"; event_id := 5 |} ∧
  0%nat ≠ 1%nat ∧
  event_id TestEvent ≠ 5%N ∧
  ∀ (self : EventBus) (callback : callable) (priority : Z),
    let self' := (subscribe self TestEvent (Some callback) priority).1 in
    listeners self' !! 5%N = listeners self !! 5%N ∧
    (∀ h, _priorities self' !! (5%N, h) = _priorities self !! (5%N, h)) ∧
    callback ∈ handlers_of self' (event_id TestEvent).
Proof.
  split; [reflexivity|]. split; [reflexivity|]. split; [lia|].
  exact (event_identifiers_fresh test_draw test_draw_fresh
           [Some "test-event"; Some "test-event"] 4 0 1
           TestEvent {| name := Some "test-event"; event_id := 5 |}
           eq_refl eq_refl ltac:(lia)).
Defined.

Lemma test_world_inv : binder_inv test_draw 0 test_world.
Proof.
  apply binder_inv_init; [done|].
  intros func info Hin [-> | ->]; set_solver.
Qed.

Lemma binder_unsubscribes_on_exit_witness :
  binder_inv test_draw 0 test_world ∧
  (∀ obj func event priority,
      objects test_world !! 0%nat = Some obj →
      (func, Some (event, priority)) ∈ members obj →
      (BoundMethod 0 func ∉ handlers_of (w_bus stopped_world) (event_id event)) ∧
      _priorities (w_bus stopped_world) !! (event_id event, BoundMethod 0 func) = None) ∧
  (∀ eid func,
      lifecycle_method func →
      BoundMethod 0 func ∈ handlers_of (w_bus test_world) eid →
      BoundMethod 0 func ∈ handlers_of (w_bus stopped_world) eid).
Proof.
  split; [exact test_world_inv|].
  exact (binder_unsubscribes_on_exit test_draw elements elements_enumerates
           test_user test_user_errors 0 test_world test_world_inv).
Defined.

(** C7, as the specification words it, fails on the subscriber of the tests:
    its method [on_test_event] is registered after the start event and
    removed by the exit event, but after the exit event the subscriber still
    has subscriptions in the registry, those of its [on_start] and [on_exit]
    methods. *)
Lemma binder_residual_subscriptions :
  BoundMethod 0 "on_test_event" ∈ handlers_of (w_bus started_world) (event_id TestEvent) ∧
  BoundMethod 0 "on_start"
    ∈ handlers_of (w_bus stopped_world) (event_id (OnStart test_draw)) ∧
  BoundMethod 0 "on_exit"
    ∈ handlers_of (w_bus stopped_world) (event_id (OnExit test_draw)) ∧
  ¬ (∀ eid func, BoundMethod 0 func ∉ handlers_of (w_bus stopped_world) eid).
Proof.
  split; [by vm_compute|]. split; [by vm_compute|]. split; [by vm_compute|].
  intros Hnone. apply (Hnone (event_id (OnStart test_draw)) "on_start").
  by vm_compute.
Qed.

(** ** More on the registry *)

(** X1. [unsubscribe] on a registry that satisfies the invariant removes
    exactly one pair: the callback leaves the handler set of the event, its
    priority record is deleted, and the handler sets of the other events and
    all other priorities are as before; when the pair is not registered the
    bus is left as it was. *)
Theorem unsubscribe_removes_one_pair (self : EventBus) (event : Event)
    (callback : callable) :
  bus_inv self →
  let self' := (unsubscribe self event callback).2 in
  (∀ eid, handlers_of self' eid =
          if decide (event_id event = eid)
          then handlers_of self eid ∖ {[callback]}
          else handlers_of self eid) ∧
  _priorities self' = delete (event_id event, callback) (_priorities self) ∧
  (callback ∉ handlers_of self (event_id event) → self' = self).
Proof.
  intros Hinv self'.
  destruct (unsubscribe_inv self event callback Hinv) as (_ & _ & Hh).
  split; [exact Hh|].
  assert (callback ∉ handlers_of self (event_id event) →
          _priorities self !! (event_id event, callback) = None) as Hnone.
  { intros Hnot. apply eq_None_not_Some. intros Hsome. apply Hnot.
    by apply (proj1 (bus_inv_alt self) Hinv). }
  unfold self', unsubscribe, handlers_of in *.
  destruct (listeners self !! event_id event) as [ls|] eqn:Hls; simpl in *.
  - case_decide as Hin.
    + destruct Hin as [_ Hin]. simpl.
      assert (is_Some (_priorities self !! (event_id event, callback))) as [p Hp]
        by (apply Hinv; eauto).
      rewrite Hp. simpl. split; [done|]. by intros Hnot.
    + simpl. assert (callback ∉ ls) as Hnot.
      { apply not_and_l in Hin as [Hin|Hin]; [|done].
        apply dec_stable in Hin. set_solver. }
      split; [|done]. symmetry. by apply delete_id, Hnone.
  - split; [|done]. symmetry. apply delete_id, Hnone. set_solver.
Qed.

(** X2. Subscribing a callback that is already subscribed to the event does
    not add a second entry: the registry is what a single subscription at
    the new priority gives, so the last priority replaces the earlier one. *)
Theorem resubscribe_replaces_priority (self : EventBus) (event : Event)
    (callback : callable) (p p' : Z) :
  (subscribe (subscribe self event (Some callback) p).1 event (Some callback) p').1
    = (subscribe self event (Some callback) p').1 ∧
  _priorities (subscribe (subscribe self event (Some callback) p).1
                 event (Some callback) p').1
    !! (event_id event, callback) = Some p'.
Proof.
  simpl. unfold subscribe_callback. simpl. rewrite !lookup_insert_eq. simpl.
  split; [|done]. rewrite !insert_insert_eq. f_equal. f_equal. set_solver.
Qed.

(** X3. Subscribing a callback that was not subscribed to the event and
    unsubscribing it again returns normally and restores every handler set
    and every priority; the listener map is as before except that the event
    identifier is now a key (with the handlers it had), so the bus is
    exactly as before when the event identifier was already known. *)
Theorem subscribe_unsubscribe_round_trip (self : EventBus) (event : Event)
    (callback : callable) (priority : Z) :
  bus_inv self →
  callback ∉ handlers_of self (event_id event) →
  let r := unsubscribe (subscribe self event (Some callback) priority).1
             event callback in
  r.1 = Return tt ∧
  _priorities r.2 = _priorities self ∧
  listeners r.2
    = <[event_id event := handlers_of self (event_id event)]> (listeners self) ∧
  (∀ eid, handlers_of r.2 eid = handlers_of self eid) ∧
  (is_Some (listeners self !! event_id event) → r.2 = self).
Proof.
  intros Hinv Hnot r.
  assert (_priorities self !! (event_id event, callback) = None) as Hnone.
  { apply eq_None_not_Some. intros Hsome. apply Hnot.
    by apply (proj1 (bus_inv_alt self) Hinv). }
  assert (r = (Return tt,
               {| listeners := <[event_id event := handlers_of self (event_id event)]>
                                 (listeners self);
                  _priorities := _priorities self |})) as ->.
  { unfold r, unsubscribe. simpl. rewrite lookup_insert_eq.
    fold (handlers_of self (event_id event)).
    rewrite decide_True by set_solver. simpl. rewrite lookup_insert_eq.
    rewrite insert_insert_eq, delete_insert_id by done.
    do 3 f_equal. set_solver. }
  simpl. split; [done|]. split; [done|]. split; [done|]. split.
  - intros eid. unfold handlers_of at 1. simpl.
    destruct (decide (event_id event = eid)) as [<-|Hne].
    + by rewrite lookup_insert_eq.
    + by rewrite lookup_insert_ne.
  - intros [ls Hls]. destruct self as [ls0 ps0]. simpl in *. f_equal.
    unfold handlers_of. simpl. rewrite Hls. simpl. by apply insert_id.
Qed.

(** X4. Event identifiers are never dropped from the listener map:
    [subscribe] keeps every key and adds the identifier of its event, and
    [unsubscribe] leaves the set of keys as it is, so a handler set that
    becomes empty stays in the map. *)
Theorem listener_keys_kept (self : EventBus) (event : Event)
    (callback : callable) (priority : Z) :
  dom (listeners (subscribe self event (Some callback) priority).1)
    = {[event_id event]} ∪ dom (listeners self) ∧
  dom (listeners (subscribe self event None priority).1) = dom (listeners self) ∧
  dom (listeners (unsubscribe self event callback).2) = dom (listeners self).
Proof.
  split; [|split].
  - simpl. by rewrite dom_insert_L.
  - done.
  - unfold unsubscribe.
    destruct (listeners self !! event_id event) as [ls|] eqn:Hls; [|done].
    case_decide; [|done]. simpl.
    assert (dom (<[event_id event := ls ∖ {[callback]}]> (listeners self))
            = dom (listeners self)) as Hdom.
    { rewrite dom_insert_L. apply elem_of_dom_2 in Hls. set_solver. }
    by destruct (_priorities self !! (event_id event, callback)).
Qed.

(** ** More on the dispatch loops *)

Section MoreLoopFacts.
Context {S : Type}.
Variable invoke : callable -> value -> S -> outcome value * S.

Local Abbreviation call_in_turn := (call_in_turn invoke).
Local Abbreviation Calls v hs := ((fun h => Call h v) <$> hs).

(** The trace of [broadcast_nothrow]'s loop holds calls only. *)
Lemma broadcast_nothrow_for_trace ls v results s :
  (broadcast_nothrow_for invoke ls v results s).2
  = Calls v (calls_of (broadcast_nothrow_for invoke ls v results s).2).
Proof.
  revert results s. induction ls as [|[p h] ls IH]; intros results s; csimpl.
  - done.
  - unfold_M. destruct (invoke h v s) as [[r|e] s1]; csimpl.
    + fold (@bind S). specialize (IH (results ++ [(r, false)]) s1).
      destruct (broadcast_nothrow_for _ _ _ _ _) as [[o s2] t]. simpl in *.
      f_equal. exact IH.
    + destruct (is_Exception e); csimpl; [|done].
      fold (@bind S). specialize (IH (results ++ [(VExc e, true)]) s1).
      destruct (broadcast_nothrow_for _ _ _ _ _) as [[o s2] t]. simpl in *.
      f_equal. exact IH.
Qed.

(** [broadcast_nothrow]'s loop when a handler raises something that is not
    an [Exception]. *)
Lemma broadcast_nothrow_for_escapes pre p h post v results s e s2 :
  (∀ e', Raise e' ∈ (call_in_turn pre.*2 v s).1 → is_Exception e' = true) →
  invoke h v (call_in_turn pre.*2 v s).2 = (Raise e, s2) →
  is_Exception e = false →
  broadcast_nothrow_for invoke (pre ++ (p, h) :: post) v results s
  = (Raise e, s2, Calls v (pre.*2 ++ [h])).
Proof.
  revert results s. induction pre as [|[q g] pre IH]; intros results s; csimpl.
  - intros _ Hh He. unfold_M. rewrite Hh. simpl. by rewrite He.
  - unfold_M. destruct (invoke g v s) as [o s0].
    destruct (call_in_turn _ v s0) as [os s3] eqn:Hrest. simpl.
    intros Hexc Hh He. fold (@bind S).
    assert (∀ results',
              broadcast_nothrow_for invoke (pre ++ (p, h) :: post) v results' s0
              = (Raise e, s2, Calls v (pre.*2 ++ [h]))) as IH'.
    { intros results'. apply IH; rewrite ?Hrest; simpl; [|done|done].
      intros e' He'. apply Hexc. set_solver. }
    destruct o as [r|e0]; csimpl.
    + by rewrite IH'.
    + rewrite (Hexc e0) by set_solver. csimpl. by rewrite IH'.
Qed.

(** A property of the state that every handler keeps is kept by the other
    loops too. *)
Lemma broadcast_nothrow_for_state (P : S → Prop) ls v results s :
  (∀ h s, P s → P (invoke h v s).2) →
  P s → P (broadcast_nothrow_for invoke ls v results s).1.2.
Proof.
  intros Hkeep. revert results s.
  induction ls as [|[p h] ls IH]; intros results s Hs; csimpl; [done|].
  unfold_M. pose proof (Hkeep h s Hs) as Hs1.
  destruct (invoke h v s) as [[r|e] s1]; simpl in *.
  - fold (@bind S). specialize (IH (results ++ [(r, false)]) s1 Hs1).
    by destruct (broadcast_nothrow_for _ _ _ _ _) as [[o s2] t].
  - destruct (is_Exception e); simpl; [|done].
    fold (@bind S). specialize (IH (results ++ [(VExc e, true)]) s1 Hs1).
    by destruct (broadcast_nothrow_for _ _ _ _ _) as [[o s2] t].
Qed.

Lemma send_any_for_state (P : S → Prop) ls v s :
  (∀ h s, P s → P (invoke h v s).2) →
  P s → P (send_any_for invoke ls v s).1.2.
Proof.
  intros Hkeep. revert s.
  induction ls as [|[p h] ls IH]; intros s Hs; csimpl; [done|].
  unfold_M. pose proof (Hkeep h s Hs) as Hs1.
  destruct (invoke h v s) as [[r|e] s1]; simpl in *.
  - destruct (is_not_None r); simpl; [done|].
    fold (@bind S). specialize (IH s1 Hs1).
    by destruct (send_any_for _ _ _ _) as [[o s2] t].
  - by destruct (is_Exception e).
Qed.

(** When the loop of [broadcast] returns, every handler has returned. *)
Lemma broadcast_for_returned ls v results s rs' :
  (broadcast_for invoke ls v results s).1.1 = Return rs' →
  ∃ rs, call_in_turn ls.*2 v s
        = (Return <$> rs, (broadcast_for invoke ls v results s).1.2).
Proof.
  revert results s. induction ls as [|[p h] ls IH]; intros results s; csimpl.
  - intros _. by exists [].
  - unfold_M. destruct (invoke h v s) as [[r|e] s1]; simpl.
    + fold (@bind S). specialize (IH (results ++ [r]) s1).
      destruct (broadcast_for invoke ls v (results ++ [r]) s1) as [[o s2] t].
      simpl in *. intros Ho. destruct (IH Ho) as [rs Hrs].
      exists (r :: rs). by rewrite Hrs.
    + by destruct (is_Exception e).
Qed.
End MoreLoopFacts.

(** ** More on the four methods, [start] and [stop] *)

Section MoreDispatchFacts.
Variable uuid4_draw : nat -> UUID.
Variable iter_set : gset callable -> list callable.
Hypothesis iter_set_elements : ∀ s, iter_set s ≡ₚ elements s.
Context {S : Type}.
Variable self_of : S -> EventBus.
Variable invoke : callable -> value -> S -> outcome value * S.

Local Abbreviation call_in_turn := (call_in_turn invoke).
Local Abbreviation Calls v hs := ((fun h => Call h v) <$> hs).

(** X5. Whatever the strategy, a dispatch calls only handlers that were
    subscribed to the event when the dispatch began, and none of them
    twice: a handler subscribed by another handler during the dispatch is
    not called by it. *)
Theorem dispatch_calls_registered_once (s : S) (event : Event) (payload : value)
    (st : strategy) :
  bus_inv (self_of s) →
  NoDup (calls_of (trace_of iter_set self_of invoke st event payload s)) ∧
  ∀ h, h ∈ calls_of (trace_of iter_set self_of invoke st event payload s) →
       h ∈ handlers_of (self_of s) (event_id event).
Proof using iter_set_elements.
  intros Hinv.
  destruct (trace_of_calls iter_set self_of invoke st event payload s) as [k Hk].
  destruct (sorted_listeners_inv iter_set iter_set_elements (self_of s)
              (event_id event) Hinv) as (_ & Hnodup & _).
  rewrite Hk in Hnodup. apply NoDup_app in Hnodup as (Hnodup & _ & _).
  split; [done|]. intros h Hh.
  apply (elem_of_priority_order iter_set iter_set_elements); [done|].
  rewrite Hk. apply elem_of_app. by left.
Qed.

(** X6. [broadcast_nothrow] writes nothing to the log, whatever the
    handlers do: its trace consists of handler calls only. *)
Theorem broadcast_nothrow_never_logs (s : S) (event : Event) (payload : value) :
  (broadcast_nothrow iter_set self_of invoke event payload s).2
  = Calls payload
      (calls_of (broadcast_nothrow iter_set self_of invoke event payload s).2).
Proof.
  unfold broadcast_nothrow. unfold_M. case_decide; [done|].
  destruct (_sort_listeners _ _ _) as [l|e]; simpl; [|done].
  pose proof (broadcast_nothrow_for_trace invoke l payload [] s) as Ht.
  by destruct (broadcast_nothrow_for _ _ _ _ _) as [[o s2] t].
Qed.

(** X7. The tolerance of [broadcast_nothrow] ends at [Exception]: when a
    handler raises something that is not an [Exception] ([SystemExit],
    [KeyboardInterrupt]) after its predecessors returned or raised errors,
    it propagates to the caller, no result list is returned and the
    handlers after it are not called. *)
Theorem broadcast_nothrow_base_exception_escapes (s : S) (event : Event)
    (payload : value) (pre post : list callable) (h : callable) (e : exn) (s2 : S) :
  bus_inv (self_of s) →
  priority_order iter_set (self_of s) (event_id event) = pre ++ h :: post →
  (∀ e', Raise e' ∈ (call_in_turn pre payload s).1 → is_Exception e' = true) →
  invoke h payload (call_in_turn pre payload s).2 = (Raise e, s2) →
  is_Exception e = false →
  broadcast_nothrow iter_set self_of invoke event payload s
  = (Raise e, s2, Calls payload (pre ++ [h])).
Proof using iter_set_elements.
  intros Hinv Hhs Hexc Hh He.
  rewrite (broadcast_nothrow_eq iter_set iter_set_elements) by done.
  unfold priority_order in Hhs.
  apply fmap_app_inv in Hhs as (lpre & lpost & -> & Hpost & Hl).
  destruct lpost as [|[p h'] lpost]; [done|].
  csimpl in Hpost. injection Hpost as -> ->. rewrite Hl.
  by apply broadcast_nothrow_for_escapes.
Qed.

(** When [start] returns, every handler of [OnStart] has returned. *)
Lemma start_returned (s : S) (rs : list value) :
  bus_inv (self_of s) →
  (start uuid4_draw iter_set self_of invoke s).1.1 = Return rs →
  ∃ rs',
    call_in_turn (priority_order iter_set (self_of s) (event_id (OnStart uuid4_draw)))
      VNone s
    = (Return <$> rs', (start uuid4_draw iter_set self_of invoke s).1.2).
Proof using iter_set_elements.
  intros Hinv. unfold start, bind, log.
  rewrite (broadcast_eq iter_set iter_set_elements) by done.
  pose proof (broadcast_for_returned invoke
                (sorted_listeners iter_set (self_of s) (event_id (OnStart uuid4_draw)))
                VNone [] s) as Hloop.
  destruct (broadcast_for _ _ _ _ _) as [[o s2] t]. simpl in *.
  intros Ho. by apply (Hloop rs).
Qed.

(** X8. [start] logs that the bus is starting and then fires the handlers
    subscribed to [OnStart], each once, in ascending order of their
    priorities; when each of them returns it returns one result per
    subscribed handler, in that order. *)
Theorem start_fires_start_handlers (s : S) :
  bus_inv (self_of s) →
  let hs := priority_order iter_set (self_of s) (event_id (OnStart uuid4_draw)) in
  hs ≡ₚ elements (handlers_of (self_of s) (event_id (OnStart uuid4_draw))) ∧
  ascending_priority (self_of s) (event_id (OnStart uuid4_draw)) hs ∧
  ∀ rs s',
    call_in_turn hs VNone s = (Return <$> rs, s') →
    start uuid4_draw iter_set self_of invoke s
      = (Return rs, s', Log (LogInfo "Event bus is starting...") :: Calls VNone hs) ∧
    length rs = size (handlers_of (self_of s) (event_id (OnStart uuid4_draw))).
Proof using iter_set_elements.
  intros Hinv hs.
  split; [by apply (priority_order_elements iter_set iter_set_elements)|].
  split; [by apply (priority_order_ascending iter_set iter_set_elements)|].
  intros rs s' Hrun. split.
  - unfold start, bind, log.
    rewrite (broadcast_eq iter_set iter_set_elements) by done.
    by rewrite (broadcast_for_returns invoke _ VNone [] rs s s' Hrun).
  - rewrite <-(priority_order_length iter_set iter_set_elements _ _ Hinv). fold hs.
    pose proof (call_in_turn_length invoke hs VNone s) as Hlen.
    rewrite Hrun in Hlen. simpl in Hlen. by rewrite length_fmap in Hlen.
Qed.


(** X10. [send_one] on an event class that has no [name] attribute and no
    handler does not raise [NoListenersError]: building the message fails
    with [AttributeError], which propagates; nothing is logged or called. *)
Theorem send_one_nameless_event (s : S) (event : Event) (payload : value) :
  handlers_of (self_of s) (event_id event) = ∅ →
  name event = None →
  send_one iter_set self_of invoke event payload s = (Raise AttributeError, s, []).
Proof using iter_set_elements.
  unfold handlers_of, send_one. unfold_M. intros Hempty Hname. rewrite Hname.
  unfold _sort_listeners.
  destruct (listeners (self_of s) !! event_id event) as [ls|] eqn:Hls; [|done].
  simpl in Hempty. subst ls.
  assert (iter_set ∅ = []) as ->.
  { apply Permutation_nil_r. by rewrite iter_set_elements, elements_empty. }
  done.
Qed.

(** X11. A dispatch changes the program state through the handlers it
    calls only: a property of the state that every handler keeps holds
    after each of the four strategies, and when no handler changes the
    state the dispatch leaves it as it was. *)
Theorem dispatch_state_through_handlers (s : S) (event : Event)
    (payload : value) (st : strategy) :
  (∀ P : S → Prop,
      (∀ h s', P s' → P (invoke h payload s').2) →
      P s → P (state_of iter_set self_of invoke st event payload s)) ∧
  ((∀ h s', (invoke h payload s').2 = s') →
   state_of iter_set self_of invoke st event payload s = s).
Proof.
  assert (∀ P : S → Prop,
            (∀ h s', P s' → P (invoke h payload s').2) →
            P s → P (state_of iter_set self_of invoke st event payload s)) as Hgen.
  { intros P Hkeep Hs. destruct st; simpl.
    - by apply broadcast_state.
    - unfold broadcast_nothrow. unfold_M. case_decide; simpl; [done|].
      destruct (_sort_listeners _ _ _) as [l|e]; simpl; [|done].
      pose proof (broadcast_nothrow_for_state invoke P l payload [] s Hkeep Hs).
      by destruct (broadcast_nothrow_for _ _ _ _ _) as [[o s2] t].
    - unfold send_one. unfold_M.
      destruct (_sort_listeners _ _ _) as [[|[p h] l]|e]; simpl.
      + by destruct (name event).
      + pose proof (Hkeep h s Hs). by destruct (invoke h payload s).
      + destruct (is_IndexError_or_KeyError e); simpl; [|done].
        by destruct (name event).
    - unfold send_any. unfold_M. case_decide; simpl; [done|].
      destruct (_sort_listeners _ _ _) as [l|e]; simpl; [|done].
      pose proof (send_any_for_state invoke P l payload s Hkeep Hs).
      by destruct (send_any_for _ _ _ _) as [[o s2] t]. }
  split; [exact Hgen|].
  intros Hsame. apply (Hgen (fun s' => s' = s)); [|done].
  intros h s' ->. apply Hsame.
Qed.
End MoreDispatchFacts.

(** ** The further properties on the registries of the tests *)

Lemma exit_bus_inv : bus_inv exit_bus.
Proof. do 3 apply bus_inv_subscribe_callback. apply bus_inv_init. Qed.

Lemma start_bus_inv : bus_inv start_bus.
Proof. do 2 apply bus_inv_subscribe_callback. apply bus_inv_init. Qed.


Lemma exit_handlers_same_state h v s : (exit_handlers h v s).2 = s.
Proof. reflexivity. Qed.

Lemma test_handlers_same_state h v s : (test_handlers h v s).2 = s.
Proof. reflexivity. Qed.

Lemma unsubscribe_removes_one_pair_witness :
  bus_inv priority_bus ∧
  let self' := (unsubscribe priority_bus TestEvent (Function 1)).2 in
  (∀ eid, handlers_of self' eid =
          if decide (event_id TestEvent = eid)
          then handlers_of priority_bus eid ∖ {[Function 1]}
          else handlers_of priority_bus eid) ∧
  _priorities self' = delete (event_id TestEvent, Function 1) (_priorities priority_bus) ∧
  (Function 1 ∉ handlers_of priority_bus (event_id TestEvent) → self' = priority_bus).
Proof.
  split; [exact priority_bus_inv|].
  exact (unsubscribe_removes_one_pair priority_bus TestEvent (Function 1)
           priority_bus_inv).
Defined.

Lemma subscribe_unsubscribe_round_trip_witness :
  bus_inv priority_bus ∧
  (Function 7 ∉ handlers_of priority_bus (event_id TestEvent)) ∧
  let r := unsubscribe (subscribe priority_bus TestEvent (Some (Function 7)) 10).1
             TestEvent (Function 7) in
  r.1 = Return tt ∧
  _priorities r.2 = _priorities priority_bus ∧
  listeners r.2
    = <[event_id TestEvent := handlers_of priority_bus (event_id TestEvent)]>
        (listeners priority_bus) ∧
  (∀ eid, handlers_of r.2 eid = handlers_of priority_bus eid) ∧
  (is_Some (listeners priority_bus !! event_id TestEvent) → r.2 = priority_bus).
Proof.
  assert (Function 7 ∉ handlers_of priority_bus (event_id TestEvent)) as Hnot.
  { intros Hin. vm_compute in Hin. discriminate Hin. }
  split; [exact priority_bus_inv|]. split; [exact Hnot|].
  exact (subscribe_unsubscribe_round_trip priority_bus TestEvent (Function 7) 10
           priority_bus_inv Hnot).
Defined.

Lemma dispatch_calls_registered_once_witness :
  bus_inv priority_bus ∧
  NoDup (calls_of (trace_of elements id test_handlers Broadcast TestEvent (VInt 2)
                     priority_bus)) ∧
  ∀ h, h ∈ calls_of (trace_of elements id test_handlers Broadcast TestEvent (VInt 2)
                       priority_bus) →
       h ∈ handlers_of priority_bus (event_id TestEvent).
Proof.
  split; [exact priority_bus_inv|].
  exact (dispatch_calls_registered_once elements elements_enumerates id test_handlers
           priority_bus TestEvent (VInt 2) Broadcast priority_bus_inv).
Defined.

Lemma broadcast_nothrow_base_exception_escapes_witness :
  bus_inv exit_bus ∧
  priority_order elements exit_bus (event_id (OnExit test_draw))
    = [Function 1] ++ Function 2 :: [Function 3] ∧
  broadcast_nothrow elements id exit_handlers (OnExit test_draw) VNone exit_bus
    = (Raise SystemExit, exit_bus, [Call (Function 1) VNone; Call (Function 2) VNone]).
Proof.
  split; [exact exit_bus_inv|]. split; [reflexivity|].
  apply (broadcast_nothrow_base_exception_escapes elements elements_enumerates id
           exit_handlers exit_bus (OnExit test_draw) VNone
           [Function 1] [Function 3] (Function 2) SystemExit exit_bus exit_bus_inv).
  - reflexivity.
  - intros e' [Heq|Hin]%elem_of_cons.
    + injection Heq as ->. reflexivity.
    + by apply elem_of_nil in Hin.
  - reflexivity.
  - reflexivity.
Defined.

Lemma start_fires_start_handlers_witness :
  bus_inv start_bus ∧
  elements (handlers_of start_bus (event_id (OnStart test_draw)))
    = [Function 5; Function 1] ∧
  start test_draw elements id test_handlers start_bus
    = (Return [VNone; VInt 5], start_bus,
       [Log (LogInfo "Event bus is starting...");
        Call (Function 1) VNone; Call (Function 5) VNone]) ∧
  length [VNone; VInt 5] = size (handlers_of start_bus (event_id (OnStart test_draw))).
Proof.
  split; [exact start_bus_inv|]. split; [reflexivity|].
  destruct (start_fires_start_handlers test_draw elements elements_enumerates id
              test_handlers start_bus start_bus_inv) as (_ & _ & Hstart).
  destruct (Hstart [VNone; VInt 5] start_bus) as [Heq Hlen]; [reflexivity|].
  split; [|exact Hlen]. rewrite Heq. reflexivity.
Defined.


Lemma send_one_nameless_event_witness :
  handlers_of priority_bus (event_id Nameless) = ∅ ∧
  name Nameless = None ∧
  send_one elements id test_handlers Nameless (VInt 1) priority_bus
    = (Raise AttributeError, priority_bus, []).
Proof.
  split; [reflexivity|]. split; [reflexivity|].
  exact (send_one_nameless_event elements elements_enumerates id test_handlers
           priority_bus Nameless (VInt 1) eq_refl eq_refl).
Defined.

Lemma dispatch_state_through_handlers_witness :
  (∀ h s', (test_handlers h (VInt 2) s').2 = s') ∧
  state_of elements id test_handlers SendAny TestEvent (VInt 2) priority_bus
    = priority_bus.
Proof.
  split; [exact (fun h s' => test_handlers_same_state h (VInt 2) s')|].
  exact (proj2 (dispatch_state_through_handlers elements id test_handlers
                  priority_bus TestEvent (VInt 2) SendAny)
           (fun h s' => test_handlers_same_state h (VInt 2) s')).
Defined.

(** ** More on the Subscriber binder *)

(** The priorities that the loop of [on_start] does not record are as
    before. *)
Lemma on_start_for_priorities_other self ms w k :
  (∀ func event p, (func, Some (event, p)) ∈ ms →
                   k ≠ (event_id event, BoundMethod self func)) →
  _priorities (w_bus (on_start_for self ms w)) !! k = _priorities (w_bus w) !! k.
Proof.
  revert w. induction ms as [|[func [[event priority]|]] ms IH]; intros w Hk; simpl.
  - done.
  - rewrite IH by (intros func' event' p' Hin; apply (Hk func' event' p'); set_solver).
    simpl. rewrite lookup_insert_ne; [done|]. intros <-.
    by apply (Hk func event priority); [left|].
  - apply IH. intros func' event' p' Hin. apply (Hk func' event' p'). set_solver.
Qed.

(** The loop of [on_start] records the declared priority of each decorated
    member. *)
Lemma on_start_for_priorities self ms w func event p :
  NoDup ms.*1 →
  (func, Some (event, p)) ∈ ms →
  _priorities (w_bus (on_start_for self ms w))
    !! (event_id event, BoundMethod self func) = Some p.
Proof.
  revert w. induction ms as [|[func0 [[event0 p0]|]] ms IH]; intros w Hnd Hin; csimpl.
  - by apply elem_of_nil in Hin.
  - apply NoDup_cons in Hnd as [Hfresh Hnd].
    apply elem_of_cons in Hin as [[= -> -> ->]|Hin].
    + rewrite on_start_for_priorities_other; [simpl; by rewrite lookup_insert_eq|].
      intros func' event' p' Hin' [= _ <-]. apply Hfresh.
      apply list_elem_of_fmap. by exists (func0, Some (event', p')).
    + by apply IH.
  - apply NoDup_cons in Hnd as [_ Hnd].
    apply elem_of_cons in Hin as [[=]|Hin]. by apply IH.
Qed.

(** The priorities of the pairs that the loop of [on_exit] does not go over
    are as before. *)
Lemma on_exit_for_priorities_other subs w k :
  (∀ event h, (event, h) ∈ subs → k ≠ (event_id event, h)) →
  _priorities (w_bus (on_exit_for subs w).2) !! k = _priorities (w_bus w) !! k.
Proof.
  revert w. induction subs as [|[event member] subs IH]; intros w Hk; simpl; [done|].
  assert (_priorities (unsubscribe (w_bus w) event member).2 !! k
          = _priorities (w_bus w) !! k) as Hun.
  { unfold unsubscribe.
    destruct (listeners (w_bus w) !! event_id event); [|done].
    case_decide; [|done]. simpl.
    destruct (_priorities (w_bus w) !! (event_id event, member)); simpl; [|done].
    rewrite lookup_delete_ne; [done|]. intros <-.
    by apply (Hk event member); [left|]. }
  destruct (unsubscribe (w_bus w) event member) as [[[]|e] bus1]; simpl in *.
  - rewrite IH by (intros event' h' Hin; apply (Hk event' h'); set_solver). done.
  - done.
Qed.

Section MoreBinderFacts.
Variable uuid4_draw : nat -> UUID.
Variable iter_set : gset callable -> list callable.
Hypothesis iter_set_elements : ∀ s, iter_set s ≡ₚ elements s.
Variable user : callable -> value -> outcome value.
Hypothesis user_errors : ∀ h v e, user h v = Raise e → is_Exception e = true.

Local Abbreviation invoke := (subscriber.invoke user).

(** No call registers a lifecycle method of the binder. *)
Lemma invoke_adds_no_lifecycle self h v w eid func :
  binder_inv uuid4_draw self w →
  lifecycle_method func →
  BoundMethod self func ∉ handlers_of (w_bus w) eid →
  BoundMethod self func ∉ handlers_of (w_bus (invoke h v w).2) eid.
Proof.
  intros (Hinv & Hwf & _) Hlc Hfree.
  destruct (invoke_cases user h v w)
    as [(o & obj' & _ & Hobj' & ->) | [(o & obj' & _ & Hobj' & ->) | ->]]; simpl.
  - destruct (on_start_for_spec o (members obj') w Hinv) as (_ & Hh & _).
    intros [Hold|(func' & event & p & Hin & _ & Heq)]%Hh; [done|].
    injection Heq as -> ->.
    destruct (Hwf o obj' Hobj') as [Hwf1 _]. by apply (Hwf1 func' (event, p)).
  - destruct (on_exit_for_spec (__subscriptions obj') w Hinv) as (_ & _ & _ & Hh).
    by intros [Hold _]%Hh.
  - done.
Qed.

(** Every call keeps the binder bound and the members of the object. *)
Lemma invoke_keeps_bound self ms h v w :
  binder_bound uuid4_draw self w →
  members <$> objects w !! self = Some ms →
  binder_bound uuid4_draw self (invoke h v w).2 ∧
  members <$> objects (invoke h v w).2 !! self = Some ms.
Proof.
  intros (Hinv & Hstart & Hexit) Hms.
  destruct (invoke_keeps_inv uuid4_draw user self ms h v w Hinv Hms) as [Hinv' Hms'].
  split; [|done]. split; [done|]. split.
  - apply (invoke_keeps_lifecycle uuid4_draw); [done|by left|done].
  - apply invoke_adds_no_lifecycle; [done|by right|done].
Qed.

(** A call of anything but the two lifecycle methods of the binder keeps
    the priorities recorded for the methods of the binder. *)
Lemma invoke_keeps_priority self h v w eid func p :
  objects_wf w →
  h ≠ BoundMethod self "on_start" →
  h ≠ BoundMethod self "on_exit" →
  _priorities (w_bus w) !! (eid, BoundMethod self func) = Some p →
  _priorities (w_bus (invoke h v w).2) !! (eid, BoundMethod self func) = Some p.
Proof.
  intros Hwf Hs He Hp.
  destruct (invoke_cases user h v w)
    as [(o & obj' & -> & Hobj' & ->) | [(o & obj' & -> & Hobj' & ->) | ->]]; simpl.
  - rewrite on_start_for_priorities_other; [done|].
    intros func' event' p' _ Heq. injection Heq as _ <- _. done.
  - rewrite on_exit_for_priorities_other; [done|].
    intros event' h' Hin Heq. injection Heq as _ <-.
    destruct (Hwf o obj' Hobj') as [_ Hwf2].
    destruct (Hwf2 _ _ Hin) as (func' & Heq & _). injection Heq as <- _. done.
  - done.
Qed.

(** [start] keeps the binder bound. *)
Lemma start_keeps_binder self ms w :
  binder_bound uuid4_draw self w →
  members <$> objects w !! self = Some ms →
  let w1 := (start uuid4_draw iter_set w_bus invoke w).1.2 in
  binder_bound uuid4_draw self w1 ∧ members <$> objects w1 !! self = Some ms.
Proof.
  intros Hw Hms w1. unfold w1, start, bind, log.
  pose proof (broadcast_state iter_set w_bus invoke
                (fun w' => binder_bound uuid4_draw self w' ∧
                           members <$> objects w' !! self = Some ms)
                (OnStart uuid4_draw) VNone w) as HP.
  destruct (broadcast _ _ _ _ _ _) as [[o s2] t]. simpl in *.
  apply HP; [|done]. intros h w' [? ?]. by apply invoke_keeps_bound.
Qed.

(** [stop] keeps the binder bound and leaves none of its recorded pairs
    registered. *)
Lemma stop_unregisters_binder self ms w :
  binder_bound uuid4_draw self w →
  members <$> objects w !! self = Some ms →
  let w2 := (stop uuid4_draw iter_set w_bus invoke w).1.2 in
  binder_bound uuid4_draw self w2 ∧ members <$> objects w2 !! self = Some ms ∧
  binder_unregistered self w2.
Proof using iter_set_elements user_errors.
  intros Hw Hms w2.
  set (P := fun w' => binder_bound uuid4_draw self w' ∧
                      members <$> objects w' !! self = Some ms).
  assert (∀ h w', P w' → P (invoke h VNone w').2) as Hkeep
    by (intros h w' [? ?]; by apply invoke_keeps_bound).
  assert (w2 = (call_in_turn invoke
                  (priority_order iter_set (w_bus w) (event_id (OnExit uuid4_draw)))
                  VNone w).2) as ->.
  { unfold w2, stop, bind, log.
    rewrite <-(broadcast_nothrow_state iter_set iter_set_elements w_bus invoke
                 (OnExit uuid4_draw) VNone w);
      [|by destruct Hw as [[? _] _]|intros h s e; by apply invoke_raises].
    by destruct (broadcast_nothrow _ _ _ _ _ _) as [[o s2] t]. }
  pose proof Hw as [(Hbus & Hwf & obj & Hobj & Hexit & Hstart & HJ) _].
  set (hs := priority_order iter_set (w_bus w) (event_id (OnExit uuid4_draw))).
  assert (BoundMethod self "on_exit" ∈ hs) as Hin
    by (by apply (elem_of_priority_order iter_set iter_set_elements)).
  assert (BoundMethod self "on_start" ∉ hs) as Hnotin
    by (intros Hmem;
        by apply (elem_of_priority_order iter_set iter_set_elements) in Hmem).
  apply list_elem_of_split in Hin as (pre & post & Hhs).
  rewrite Hhs, call_in_turn_app_state, call_in_turn_cons_state.
  set (wa := (call_in_turn invoke pre VNone w).2).
  set (wb := (invoke (BoundMethod self "on_exit") VNone wa).2).
  assert (P wa) as Hwa
    by (apply (call_in_turn_state invoke P); [intros; by apply Hkeep|done]).
  assert (P wb ∧ binder_unregistered self wb) as Hwb.
  { split; [by apply Hkeep|]. apply (invoke_on_exit_unregisters uuid4_draw).
    by destruct Hwa as [[? _] _]. }
  assert (P (call_in_turn invoke post VNone wb).2 ∧
          binder_unregistered self (call_in_turn invoke post VNone wb).2)
    as [[? ?] ?]; [|done].
  apply (call_in_turn_state invoke (fun w => P w ∧ binder_unregistered self w));
    [|done].
  intros h w0 Hh [HP HK]. split; [by apply Hkeep|].
  apply (invoke_keeps_unregistered uuid4_draw); [|by destruct HP as [[? _] _]|done].
  intros ->. apply Hnotin. rewrite Hhs. set_solver.
Qed.

(** A [start] that returns normally leaves every decorated method of a
    bound binder registered for its event at its declared priority. *)
Lemma start_binds_members self w rs obj func event priority :
  binder_bound uuid4_draw self w →
  (start uuid4_draw iter_set w_bus invoke w).1.1 = Return rs →
  objects w !! self = Some obj →
  NoDup (members obj).*1 →
  (func, Some (event, priority)) ∈ members obj →
  let w1 := (start uuid4_draw iter_set w_bus invoke w).1.2 in
  BoundMethod self func ∈ handlers_of (w_bus w1) (event_id event) ∧
  _priorities (w_bus w1) !! (event_id event, BoundMethod self func) = Some priority.
Proof using iter_set_elements.
  clear user_errors. intros Hw Hret Hobj Hnd Hin w1.
  pose proof Hw as ((Hbus & Hwf & _) & Hstart & Hexit).
  destruct (start_returned uuid4_draw iter_set iter_set_elements w_bus invoke
              w rs Hbus Hret) as [rs' Hrun'].
  set (hs := priority_order iter_set (w_bus w) (event_id (OnStart uuid4_draw))) in *.
  assert ((call_in_turn invoke hs VNone w).2 = w1) as Hrun by (by rewrite Hrun').
  clear Hrun'.
  assert (NoDup hs) as Hnodup
    by (by destruct (sorted_listeners_inv iter_set iter_set_elements (w_bus w)
                       (event_id (OnStart uuid4_draw)) Hbus) as (_ & ? & _)).
  assert (BoundMethod self "on_start" ∈ hs) as Hmem
    by (by apply (elem_of_priority_order iter_set iter_set_elements)).
  assert (BoundMethod self "on_exit" ∉ hs) as Hnotin
    by (intros Hmem';
        by apply (elem_of_priority_order iter_set iter_set_elements) in Hmem').
  apply list_elem_of_split in Hmem as (pre & post & Hhs).
  rewrite Hhs in Hnodup. apply NoDup_app in Hnodup as (_ & _ & Hnodup).
  apply NoDup_cons in Hnodup as [Hpost _].
  rewrite Hhs, call_in_turn_app_state, call_in_turn_cons_state in Hrun.
  set (ms := members obj) in *.
  set (P := fun w' => binder_bound uuid4_draw self w' ∧
                      members <$> objects w' !! self = Some ms).
  assert (∀ h w', P w' → P (invoke h VNone w').2) as Hkeep
    by (intros h w' [? ?]; by apply invoke_keeps_bound).
  set (wa := (call_in_turn invoke pre VNone w).2) in *.
  set (wb := (invoke (BoundMethod self "on_start") VNone wa).2) in *.
  set (k := (event_id event, BoundMethod self func)).
  assert (P wa) as Hwa.
  { apply (call_in_turn_state invoke P); [intros; by apply Hkeep|].
    split; [done|]. by rewrite Hobj. }
  assert (_priorities (w_bus wb) !! k = Some priority) as Hwb.
  { destruct Hwa as [_ Hms]. unfold wb, subscriber.invoke.
    destruct (objects wa !! self) as [obja|] eqn:Hobja; [|done].
    simpl in Hms. injection Hms as Hms.
    rewrite decide_True by done. unfold on_start. rewrite Hobja. simpl.
    rewrite Hms. by apply on_start_for_priorities. }
  assert (P w1 ∧ _priorities (w_bus w1) !! k = Some priority) as [[Hw1 _] Hk].
  { rewrite <-Hrun.
    apply (call_in_turn_state invoke
             (fun w' => P w' ∧ _priorities (w_bus w') !! k = Some priority)).
    - intros h w0 Hh [HP Hp]. split; [by apply Hkeep|].
      destruct HP as [((_ & Hwf0 & _) & _) _].
      apply invoke_keeps_priority; [done| | |done].
      + by intros ->.
      + intros ->. apply Hnotin. rewrite Hhs. set_solver.
    - split; [by apply Hkeep|done]. }
  split; [|done].
  destruct Hw1 as ((Hbus1 & _) & _).
  apply (proj1 (bus_inv_alt (w_bus w1)) Hbus1). by exists priority.
Qed.

(** X12. The binder can be started and stopped any number of times.  After
    any number of [start]/[stop] rounds the subscriber is bound to the bus
    as its constructor left it: its [on_start] is subscribed to [OnStart]
    and its [on_exit] to [OnExit].  After at least one round none of its
    decorated methods is registered for its event or has a priority
    recorded.  And the next [start], when it returns normally, registers
    every decorated method for its event at its declared priority, as the
    first one does. *)
Theorem binder_restartable (self : nat) (w : World) (n : nat) :
  binder_bound uuid4_draw self w →
  let wn := Nat.iter n (start_stop uuid4_draw iter_set user) w in
  (binder_bound uuid4_draw self wn ∧
   BoundMethod self "on_exit" ∈ handlers_of (w_bus wn) (event_id (OnExit uuid4_draw))) ∧
  ((0 < n)%nat →
   ∀ obj func event priority,
     objects w !! self = Some obj →
     (func, Some (event, priority)) ∈ members obj →
     (BoundMethod self func ∉ handlers_of (w_bus wn) (event_id event)) ∧
     _priorities (w_bus wn) !! (event_id event, BoundMethod self func) = None) ∧
  (∀ rs obj func event priority,
     (start uuid4_draw iter_set w_bus invoke wn).1.1 = Return rs →
     objects w !! self = Some obj →
     NoDup (members obj).*1 →
     (func, Some (event, priority)) ∈ members obj →
     let w' := (start uuid4_draw iter_set w_bus invoke wn).1.2 in
     BoundMethod self func ∈ handlers_of (w_bus w') (event_id event) ∧
     _priorities (w_bus w') !! (event_id event, BoundMethod self func)
       = Some priority).
Proof using iter_set_elements user_errors.
  intros Hw.
  assert (∃ ms, members <$> objects w !! self = Some ms) as [ms Hms].
  { destruct Hw as ((_ & _ & obj & Hobj & _) & _). rewrite Hobj. by eexists. }
  assert (∀ k, let wk := Nat.iter k (start_stop uuid4_draw iter_set user) w in
               binder_bound uuid4_draw self wk ∧
               members <$> objects wk !! self = Some ms ∧
               ((0 < k)%nat → binder_unregistered self wk)) as Hall.
  { induction k as [|k IH]; simpl.
    - split; [done|]. split; [done|]. lia.
    - destruct IH as (Hinv & Hmem & _). unfold start_stop at 1.
      destruct (start_keeps_binder self ms _ Hinv Hmem) as [Hinv1 Hmem1].
      destruct (stop_unregisters_binder self ms _ Hinv1 Hmem1) as (? & ? & ?).
      done. }
  intros wn. subst wn. destruct (Hall n) as (Hbound & Hmem & HK).
  pose proof Hbound as ((Hbus & Hwf & objn & Hobjn & Hexit & Hstart & HJ) & _).
  assert (∀ obj, objects w !! self = Some obj → members objn = members obj) as Hsame.
  { intros obj Hobj. rewrite Hobj in Hms. rewrite Hobjn in Hmem.
    simpl in *. congruence. }
  split; [done|]. split.
  - intros Hn obj func event priority Hobj Hin. specialize (HK Hn).
    assert (BoundMethod self func
              ∉ handlers_of (w_bus (Nat.iter n (start_stop uuid4_draw iter_set user) w))
                  (event_id event)) as Hgone.
    { intros Hreg. rewrite <-(Hsame obj Hobj) in Hin.
      destruct (HJ func event priority Hin Hreg) as (event' & Hrec & Hid).
      apply (HK objn event' (BoundMethod self func) Hobjn Hrec). by rewrite Hid. }
    split; [done|].
    apply eq_None_not_Some. intros Hsome. apply Hgone.
    by apply (proj1 (bus_inv_alt _) Hbus).
  - intros rs obj func event priority Hret Hobj Hnd Hin.
    rewrite <-(Hsame obj Hobj) in Hnd, Hin.
    by apply (start_binds_members self _ rs objn func event priority).
Qed.
End MoreBinderFacts.

Section BinderMethods.
Variable user : callable -> value -> outcome value.

Local Abbreviation invoke := (subscriber.invoke user).

Lemma invoke_on_start self payload w obj :
  objects w !! self = Some obj →
  invoke (BoundMethod self "on_start") payload w
  = (Return VNone, on_start_for self (members obj) w).
Proof.
  intros Hobj. unfold subscriber.invoke. rewrite Hobj.
  rewrite decide_True by done. unfold on_start. by rewrite Hobj.
Qed.

Lemma invoke_on_exit self payload w obj :
  objects w !! self = Some obj →
  invoke (BoundMethod self "on_exit") payload w
  = on_exit_for (__subscriptions obj) w.
Proof.
  intros Hobj. unfold subscriber.invoke. rewrite Hobj.
  rewrite decide_False by done. rewrite decide_True by done.
  unfold on_exit. by rewrite Hobj.
Qed.

(** X13. [Subscriber.on_start] returns [None] after it has subscribed every
    decorated method of the subscriber to its event at its declared
    priority and recorded the pair; every handler it adds to the registry
    is such a method, and the record list is the old one followed by one
    pair per decorated member. *)
Theorem on_start_binds_members (self : nat) (w : World) (obj : Subscriber)
    (payload : value) :
  bus_inv (w_bus w) →
  objects w !! self = Some obj →
  NoDup (members obj).*1 →
  let r := invoke (BoundMethod self "on_start") payload w in
  r.1 = Return VNone ∧
  (∀ func event priority,
      (func, Some (event, priority)) ∈ members obj →
      BoundMethod self func ∈ handlers_of (w_bus r.2) (event_id event) ∧
      _priorities (w_bus r.2) !! (event_id event, BoundMethod self func)
        = Some priority) ∧
  (∀ eid h,
      h ∈ handlers_of (w_bus r.2) eid →
      h ∈ handlers_of (w_bus w) eid ∨
      ∃ func event priority,
        (func, Some (event, priority)) ∈ members obj ∧ event_id event = eid ∧
        h = BoundMethod self func) ∧
  objects r.2 !! self
    = Some {| members := members obj;
              __subscriptions := __subscriptions obj ++ recorded self (members obj) |}.
Proof.
  intros Hinv Hobj Hnd r. unfold r. rewrite (invoke_on_start self payload w obj Hobj).
  simpl. destruct (on_start_for_spec self (members obj) w Hinv) as (_ & Hh & Hobjs).
  split; [done|]. split; [|split].
  - intros func event priority Hin. split.
    + apply Hh. right. by exists func, event, priority.
    + by apply on_start_for_priorities.
  - intros eid h Hin. by apply Hh.
  - rewrite Hobjs, decide_True by done. by rewrite Hobj.
Qed.

(** X14. [Subscriber.on_exit] undoes [Subscriber.on_start]: when the
    decorated methods are not registered for their events and no recorded
    pair is registered, [on_start] followed by [on_exit] returns normally
    and leaves every handler set and every priority as it was.  The record
    list is not cleared: it has grown by one pair per decorated member. *)
Theorem on_start_on_exit_round_trip (self : nat) (w : World) (obj : Subscriber)
    (payload : value) :
  bus_inv (w_bus w) →
  objects w !! self = Some obj →
  binder_unregistered self w →
  (∀ func event priority,
      (func, Some (event, priority)) ∈ members obj →
      BoundMethod self func ∉ handlers_of (w_bus w) (event_id event)) →
  let w1 := (invoke (BoundMethod self "on_start") payload w).2 in
  let r := invoke (BoundMethod self "on_exit") payload w1 in
  r.1 = Return VNone ∧
  (∀ eid, handlers_of (w_bus r.2) eid = handlers_of (w_bus w) eid) ∧
  _priorities (w_bus r.2) = _priorities (w_bus w) ∧
  objects r.2 !! self
    = Some {| members := members obj;
              __subscriptions := __subscriptions obj ++ recorded self (members obj) |}.
Proof.
  intros Hinv Hobj HK Hfree w1 r.
  set (subs' := __subscriptions obj ++ recorded self (members obj)).
  set (obj1 := {| members := members obj; __subscriptions := subs' |}).
  destruct (on_start_for_spec self (members obj) w Hinv) as (Hinv1 & Hh1 & Hobjs1).
  assert (w1 = on_start_for self (members obj) w) as Hw1
    by (unfold w1; by rewrite (invoke_on_start self payload w obj Hobj)).
  assert (objects w1 !! self = Some obj1) as Hobj1.
  { rewrite Hw1, Hobjs1, decide_True by done. by rewrite Hobj. }
  assert (r = on_exit_for subs' w1) as Hr
    by (unfold r; by rewrite (invoke_on_exit self payload w1 obj1 Hobj1)).
  rewrite Hw1 in Hr, Hobj1.
  destruct (on_exit_for_spec subs' (on_start_for self (members obj) w) Hinv1)
    as (Hret & Hinv2 & Hobjs2 & Hh2).
  rewrite <-Hr in Hret, Hinv2, Hobjs2, Hh2.
  assert (∀ event h, (event, h) ∈ subs' → h ∉ handlers_of (w_bus w) (event_id event))
    as Hunreg.
  { intros event h [Hold|Hnew]%elem_of_app.
    - by eapply HK.
    - apply elem_of_recorded in Hnew as (func & p & Hin & ->). by eapply Hfree. }
  assert (∀ eid h, h ∈ handlers_of (w_bus r.2) eid ↔ h ∈ handlers_of (w_bus w) eid)
    as Hsame.
  { intros eid h. rewrite Hh2, Hh1. split.
    - intros [[Hold|(func & event & p & Hin & <- & ->)] Hnot]; [done|].
      exfalso. apply Hnot. exists event. split; [|done].
      apply elem_of_app. right. apply elem_of_recorded. eauto.
    - intros Hold. split; [by left|].
      intros (event & Hrec & <-). by apply (Hunreg event h). }
  split; [done|]. split; [|split].
  - intros eid. apply set_eq. intros h. apply Hsame.
  - apply map_eq. intros [eid h].
    assert ((∃ event, (event, h) ∈ subs' ∧ event_id event = eid) ∨
            ¬ (∃ event, (event, h) ∈ subs' ∧ event_id event = eid))
      as [(event & Hrec & <-)|Hnot].
    { destruct (decide ((eid, h) ∈ (fun x : Event * callable => (event_id x.1, x.2))
                                     <$> subs')) as [Hin|Hnin].
      - left. apply list_elem_of_fmap in Hin as ([event h'] & [= -> ->] & Hin).
        by exists event.
      - right. intros (event & Hrec & <-). apply Hnin.
        apply list_elem_of_fmap. by exists (event, h). }
    + transitivity (@None Z).
      * apply eq_None_not_Some. intros Hsome.
        apply (Hunreg event h Hrec). apply Hsame.
        by apply (proj1 (bus_inv_alt _) Hinv2).
      * symmetry. apply eq_None_not_Some. intros Hsome.
        apply (Hunreg event h Hrec). by apply (proj1 (bus_inv_alt _) Hinv).
    + rewrite Hr. rewrite on_exit_for_priorities_other.
      * apply on_start_for_priorities_other.
        intros func event p Hin [= -> ->]. apply Hnot. exists event. split; [|done].
        apply elem_of_app. right. apply elem_of_recorded. eauto.
      * intros event h' Hrec [= -> ->]. apply Hnot. eauto.
  - by rewrite Hobjs2.
Qed.
End BinderMethods.

(** ** Ties between priorities *)

Section Before.
Context {A : Type}.

Lemma before_cons (a b x : A) (l : list A) : before a b l → before a b (x :: l).
Proof. intros (l1 & l2 & l3 & ->). by exists (x :: l1), l2, l3. Qed.

Lemma before_head (a b : A) (l : list A) : b ∈ l → before a b (a :: l).
Proof. intros (l2 & l3 & ->)%list_elem_of_split. by exists [], l2, l3. Qed.

Lemma before_cons_inv (a b x : A) (l : list A) :
  before a b (x :: l) → (x = a ∧ b ∈ l) ∨ before a b l.
Proof.
  intros ([|y l1] & l2 & l3 & Heq); simplify_eq/=.
  - left. split; [done|]. set_solver.
  - right. by exists l1, l2, l3.
Qed.

Lemma before_fmap {B} (f : A → B) (a b : A) (l : list A) :
  before a b l → before (f a) (f b) (f <$> l).
Proof.
  intros (l1 & l2 & l3 & ->). exists (f <$> l1), (f <$> l2), (f <$> l3).
  by rewrite !fmap_app, !fmap_cons, !fmap_app, !fmap_cons.
Qed.

Lemma before_fmap_inv {B} (f : A → B) (x y : B) (l : list A) :
  before x y (f <$> l) → ∃ a b, before a b l ∧ f a = x ∧ f b = y.
Proof.
  intros (k1 & k2 & k3 & Heq).
  apply fmap_app_inv in Heq as (l1 & l' & -> & Heq & ->).
  destruct l' as [|a l']; [done|]. csimpl in Heq. injection Heq as -> Heq.
  symmetry in Heq. apply fmap_app_inv in Heq as (l2 & l'' & -> & Heq & ->).
  destruct l'' as [|b l'']; [done|]. csimpl in Heq. injection Heq as -> Heq.
  exists a, b. split; [|done]. by exists l1, l2, l''.
Qed.
End Before.

Section Stable.
Context {A : Type} (key : A -> Z).

Lemma insert_sorted_before_keep (x a b : A) (l : list A) :
  before a b l → before a b (insert_sorted key x l).
Proof.
  induction l as [|y l IH]; intros Hb; simpl.
  - by apply before_cons.
  - destruct (key x <=? key y); [by apply before_cons|].
    apply before_cons_inv in Hb as [[-> Hin]|Hb].
    + apply before_head. rewrite insert_sorted_perm. set_solver.
    + by apply before_cons, IH.
Qed.

Lemma insert_sorted_before_new (x b : A) (l : list A) :
  b ∈ l → key x <= key b → StronglySorted (key_le key) l →
  before x b (insert_sorted key x l).
Proof.
  intros Hin Hle Hs. induction Hs as [|y l Hl IH Hy]; simpl.
  - by apply elem_of_nil in Hin.
  - destruct (Z.leb_spec (key x) (key y)) as [Hxy|Hxy].
    + by apply before_head.
    + apply before_cons, IH. apply elem_of_cons in Hin as [->|Hin]; [lia|done].
Qed.

(** The sort is stable. *)
Lemma sorted_stable (a b : A) (l : list A) :
  before a b l → key a <= key b → before a b (sorted key l).
Proof.
  intros Hb Hle. induction l as [|x l IH]; simpl.
  - destruct Hb as ([|??] & ? & ? & ?); done.
  - apply before_cons_inv in Hb as [[-> Hin]|Hb].
    + apply insert_sorted_before_new; [|done|apply sorted_StronglySorted].
      by rewrite sorted_perm.
    + by apply insert_sorted_before_keep, IH.
Qed.
End Stable.

Section Ties.
Variable iter_set : gset callable -> list callable.
Hypothesis iter_set_elements : ∀ s, iter_set s ≡ₚ elements s.

(** What [_sort_listeners] sorts. *)
Lemma sort_listeners_unsorted self eid ls :
  bus_inv self → listeners self !! eid = Some ls →
  ∃ unsorted,
    sorted_listeners iter_set self eid = sorted fst unsorted ∧
    unsorted.*2 = iter_set ls ∧
    ∀ p h, (p, h) ∈ unsorted → _priorities self !! (eid, h) = Some p.
Proof using iter_set_elements.
  intros Hinv Hls. unfold sorted_listeners, _sort_listeners. rewrite Hls.
  set (f := fun l : callable => (fun p : Z => (p, l)) <$> _priorities self !! (eid, l)).
  assert (is_Some (mapM f (iter_set ls))) as [unsorted Hun].
  { apply mapM_is_Some, Forall_forall. intros h Hh.
    rewrite iter_set_elements, elem_of_elements in Hh.
    assert (is_Some (_priorities self !! (eid, h))) as [p Hp]
      by (apply Hinv; eauto).
    unfold compose, f. rewrite Hp. by eexists. }
  rewrite Hun. exists unsorted. split; [done|].
  apply mapM_Some in Hun. clear Hls.
  induction Hun as [|h [p h'] l1 l2 Hf Hrest [IH1 IH2]]; [by split; [|set_solver]|].
  unfold f in Hf.
  destruct (_priorities self !! (eid, h)) as [q|] eqn:Hq; simpl in Hf; [|done].
  assert (h' = h ∧ p = q) as [-> ->] by (split; congruence).
  split; [csimpl; by f_equal|].
  intros p0 h0 [[= -> ->]|Hin]%elem_of_cons; [done|by apply IH2].
Qed.

(** X15. Ties are broken by the iteration order of the listener set: of
    two handlers of an event, the one that the iteration over the set
    yields first is also first in the order of dispatch unless its priority
    is the greater one, so handlers of equal priority are called in the
    iteration order of the set. *)
Theorem ties_follow_iteration_order (self : EventBus) (eid : UUID)
    (ls : gset callable) (h1 h2 : callable) (p1 p2 : Z) :
  bus_inv self →
  listeners self !! eid = Some ls →
  before h1 h2 (iter_set ls) →
  _priorities self !! (eid, h1) = Some p1 →
  _priorities self !! (eid, h2) = Some p2 →
  p1 <= p2 →
  before h1 h2 (priority_order iter_set self eid).
Proof using iter_set_elements.
  intros Hinv Hls Hb Hp1 Hp2 Hle.
  destruct (sort_listeners_unsorted self eid ls Hinv Hls)
    as (unsorted & Hsorted & Hsnd & Hprio).
  unfold priority_order. rewrite Hsorted. rewrite <-Hsnd in Hb.
  apply before_fmap_inv in Hb as ([q1 g1] & [q2 g2] & Hb & Hg1 & Hg2).
  simpl in Hg1, Hg2. subst g1 g2.
  assert (q1 = p1 ∧ q2 = p2) as [-> ->].
  { destruct Hb as (l1 & l2 & l3 & Heq).
    assert ((q1, h1) ∈ unsorted) as Hin1 by (rewrite Heq; set_solver).
    assert ((q2, h2) ∈ unsorted) as Hin2 by (rewrite Heq; set_solver).
    apply Hprio in Hin1, Hin2. split; congruence. }
  apply (before_fmap snd (p1, h1) (p2, h2)). by apply sorted_stable.
Qed.
End Ties.

(** ** Constructing subscribers *)

Section BinderConstruction.
Variable uuid4_draw : nat -> UUID.

(** X16. [Subscriber.__init__] for a new object, which has no method
    registered yet, on a bus that may already have subscribers: it
    subscribes [on_start] to [OnStart] and [on_exit] to [OnExit] at
    priority 50 and adds nothing else, the new subscriber is bound as
    [start] and [stop] require, and every subscriber that was bound stays
    bound. *)
Theorem subscriber_init_binds (self : nat)
    (ms : list (string * option (Event * Z))) (w : World) :
  bus_inv (w_bus w) →
  objects_wf w →
  objects w !! self = None →
  (∀ eid func, BoundMethod self func ∉ handlers_of (w_bus w) eid) →
  event_id (OnStart uuid4_draw) ≠ event_id (OnExit uuid4_draw) →
  (∀ func info, (func, Some info) ∈ ms → ¬ lifecycle_method func) →
  let w' := subscriber.__init__ uuid4_draw self ms w in
  binder_inv uuid4_draw self w' ∧
  _priorities (w_bus w')
    !! (event_id (OnStart uuid4_draw), BoundMethod self "on_start") = Some 50 ∧
  _priorities (w_bus w')
    !! (event_id (OnExit uuid4_draw), BoundMethod self "on_exit") = Some 50 ∧
  (∀ eid h,
      h ∈ handlers_of (w_bus w') eid ↔
      h ∈ handlers_of (w_bus w) eid ∨
      (eid = event_id (OnStart uuid4_draw) ∧ h = BoundMethod self "on_start") ∨
      (eid = event_id (OnExit uuid4_draw) ∧ h = BoundMethod self "on_exit")) ∧
  (∀ o, binder_inv uuid4_draw o w → binder_inv uuid4_draw o w').
Proof.
  intros Hinv Hwf Hnew Hfresh Hids Hms w'.
  assert (∀ eid h,
            h ∈ handlers_of (w_bus w') eid ↔
            h ∈ handlers_of (w_bus w) eid ∨
            (eid = event_id (OnStart uuid4_draw) ∧ h = BoundMethod self "on_start") ∨
            (eid = event_id (OnExit uuid4_draw) ∧ h = BoundMethod self "on_exit"))
    as Hh.
  { intros eid h. unfold w', subscriber.__init__. simpl.
    rewrite !handlers_of_subscribe_callback.
    repeat case_decide; set_unfold; naive_solver. }
  assert (bus_inv (w_bus w')) as Hinv'
    by (unfold w'; simpl; by do 2 apply bus_inv_subscribe_callback).
  assert (objects_wf w') as Hwf'.
  { intros o obj. unfold w'. simpl. rewrite lookup_insert_Some.
    intros [[<- <-]|[_ Hobj]]; [|by apply Hwf]. simpl. split; [done|].
    intros event h Hin. by apply elem_of_nil in Hin. }
  split; [|split; [|split; [|split]]].
  - split; [done|]. split; [done|].
    eexists. split; [unfold w'; simpl; by rewrite lookup_insert_eq|]. simpl.
    split; [|split].
    + apply Hh. right; right. done.
    + intros [Hold|[[Heq _]|[_ [=]]]]%Hh; [by eapply Hfresh|done].
    + intros func event priority Hin Hreg. exfalso.
      apply Hh in Hreg as [Hold|[[_ [= ->]]|[_ [= ->]]]].
      * by eapply Hfresh.
      * eapply Hms; [done|by left].
      * eapply Hms; [done|by right].
  - unfold w'. simpl. rewrite lookup_insert_ne by congruence.
    by rewrite lookup_insert_eq.
  - unfold w'. simpl. by rewrite lookup_insert_eq.
  - exact Hh.
  - intros o (_ & _ & obj & Hobj & Hexit & Hstart & HJ).
    assert (self ≠ o) as Hne by congruence.
    split; [done|]. split; [done|]. exists obj.
    split; [unfold w'; simpl; by rewrite lookup_insert_ne|]. split; [|split].
    + apply Hh. by left.
    + intros [Hold|[[_ [=]]|[_ [=]]]]%Hh; [done|congruence].
    + intros func event priority Hin [Hold|[[_ [=]]|[_ [=]]]]%Hh;
        [by eapply HJ|congruence|congruence].
Qed.
End BinderConstruction.

(** ** The properties of subscribers and ties on the worlds of the tests *)

Lemma handlers_of_init uuid4_draw eid : handlers_of (bus.__init__ uuid4_draw) eid = ∅.
Proof.
  unfold handlers_of.
  destruct (listeners _ !! eid) as [ls|] eqn:Hls; [|done].
  by apply init_listeners_empty in Hls.
Qed.

Lemma tie_bus_inv : bus_inv tie_bus.
Proof. do 2 apply bus_inv_subscribe_callback. apply bus_inv_init. Qed.

Lemma test_world_unregistered : binder_unregistered 0 test_world.
Proof.
  intros obj event h Hobj Hin. unfold test_world in Hobj. simpl in Hobj.
  rewrite lookup_insert_eq in Hobj. injection Hobj as <-.
  by apply elem_of_nil in Hin.
Qed.

Lemma test_world_fresh (o : nat) (eid : UUID) (func : string) :
  ¬ lifecycle_method func ∨ o ≠ 0%nat →
  BoundMethod o func ∉ handlers_of (w_bus test_world) eid.
Proof.
  intros Hfresh. unfold test_world. simpl.
  rewrite !handlers_of_subscribe_callback, handlers_of_init.
  unfold lifecycle_method in Hfresh.
  repeat case_decide; set_unfold; naive_solver.
Qed.

Lemma test_world_bound : binder_bound test_draw 0 test_world.
Proof.
  assert (event_id (OnExit test_draw) ≠ event_id (OnStart test_draw)) as Hids
    by (vm_compute; discriminate).
  split; [exact test_world_inv|]. unfold test_world. simpl.
  rewrite !handlers_of_subscribe_callback, handlers_of_init.
  rewrite decide_False, decide_True by done.
  split; [set_solver|]. set_unfold. naive_solver.
Qed.

Lemma binder_restartable_witness :
  binder_bound test_draw 0 test_world ∧
  let wn := Nat.iter 2 (start_stop test_draw elements test_user) test_world in
  let w' := (start test_draw elements w_bus (subscriber.invoke test_user) wn).1.2 in
  binder_bound test_draw 0 wn ∧
  (BoundMethod 0 "on_test_event" ∉ handlers_of (w_bus wn) (event_id TestEvent)) ∧
  _priorities (w_bus wn) !! (event_id TestEvent, BoundMethod 0 "on_test_event") = None ∧
  BoundMethod 0 "on_test_event" ∈ handlers_of (w_bus w') (event_id TestEvent) ∧
  _priorities (w_bus w') !! (event_id TestEvent, BoundMethod 0 "on_test_event")
    = Some 50.
Proof.
  split; [exact test_world_bound|]. intros wn w'.
  set (obj := {| members := [("bus", None); ("on_exit", None); ("on_start", None);
                             ("on_test_event", Some (TestEvent, 50))];
                 __subscriptions := [] |}).
  assert (("on_test_event", Some (TestEvent, 50)) ∈ members obj) as Hin
    by (simpl; rewrite !elem_of_cons; do 3 right; left; reflexivity).
  destruct (binder_restartable test_draw elements elements_enumerates test_user
              test_user_errors 0 test_world 2 test_world_bound)
    as ((Hbound & _) & Hgone & Hnext).
  split; [exact Hbound|].
  assert (0 < 2)%nat as Hn by lia.
  destruct (Hgone Hn obj "on_test_event" TestEvent 50 eq_refl Hin) as [Hfree Hnone].
  split; [exact Hfree|]. split; [exact Hnone|].
  apply (Hnext [VNone] obj "on_test_event" TestEvent 50).
  - vm_compute. reflexivity.
  - reflexivity.
  - apply (bool_decide_unpack _). vm_compute. exact I.
  - exact Hin.
Defined.

Lemma on_start_binds_members_witness :
  bus_inv (w_bus test_world) ∧
  let r := subscriber.invoke test_user (BoundMethod 0 "on_start") VNone test_world in
  r.1 = Return VNone ∧
  BoundMethod 0 "on_test_event" ∈ handlers_of (w_bus r.2) (event_id TestEvent) ∧
  _priorities (w_bus r.2) !! (event_id TestEvent, BoundMethod 0 "on_test_event")
    = Some 50.
Proof.
  split; [exact (proj1 test_world_inv)|].
  destruct (on_start_binds_members test_user 0 test_world
              {| members := [("bus", None); ("on_exit", None); ("on_start", None);
                             ("on_test_event", Some (TestEvent, 50))];
                 __subscriptions := [] |}
              VNone (proj1 test_world_inv) eq_refl)
    as (Hret & Hbound & _).
  - apply (bool_decide_unpack _). vm_compute. exact I.
  - split; [exact Hret|].
    apply (Hbound "on_test_event" TestEvent 50).
    simpl. rewrite !elem_of_cons. do 3 right. left. reflexivity.
Defined.

Lemma on_start_on_exit_round_trip_witness :
  bus_inv (w_bus test_world) ∧
  binder_unregistered 0 test_world ∧
  let w1 := (subscriber.invoke test_user (BoundMethod 0 "on_start") VNone test_world).2 in
  let r := subscriber.invoke test_user (BoundMethod 0 "on_exit") VNone w1 in
  r.1 = Return VNone ∧
  (∀ eid, handlers_of (w_bus r.2) eid = handlers_of (w_bus test_world) eid) ∧
  _priorities (w_bus r.2) = _priorities (w_bus test_world) ∧
  objects r.2 !! 0%nat
    = Some {| members := [("bus", None); ("on_exit", None); ("on_start", None);
                          ("on_test_event", Some (TestEvent, 50))];
              __subscriptions := [(TestEvent, BoundMethod 0 "on_test_event")] |}.
Proof.
  split; [exact (proj1 test_world_inv)|]. split; [exact test_world_unregistered|].
  apply (on_start_on_exit_round_trip test_user 0 test_world
           {| members := [("bus", None); ("on_exit", None); ("on_start", None);
                          ("on_test_event", Some (TestEvent, 50))];
              __subscriptions := [] |}
           VNone (proj1 test_world_inv) eq_refl test_world_unregistered).
  intros func event priority Hin. apply test_world_fresh. left.
  destruct (proj1 (proj2 test_world_inv) 0%nat _ eq_refl) as [Hwf _].
  exact (Hwf func (event, priority) Hin).
Defined.

Lemma ties_follow_iteration_order_witness :
  bus_inv tie_bus ∧
  before (Function 2) (Function 1)
    (elements (handlers_of tie_bus (event_id TestEvent))) ∧
  50 <= 50 ∧
  before (Function 2) (Function 1)
    (priority_order elements tie_bus (event_id TestEvent)).
Proof.
  assert (before (Function 2) (Function 1)
            (elements (handlers_of tie_bus (event_id TestEvent)))) as Hb
    by (exists [], [], []; reflexivity).
  split; [exact tie_bus_inv|]. split; [exact Hb|]. split; [lia|].
  apply (ties_follow_iteration_order elements elements_enumerates tie_bus
           (event_id TestEvent) (handlers_of tie_bus (event_id TestEvent))
           (Function 2) (Function 1) 50 50 tie_bus_inv).
  - reflexivity.
  - exact Hb.
  - reflexivity.
  - reflexivity.
  - lia.
Defined.

Lemma subscriber_init_binds_witness :
  bus_inv (w_bus test_world) ∧ objects_wf test_world ∧
  objects test_world !! 1%nat = None ∧
  binder_inv test_draw 1 two_binders_world ∧
  _priorities (w_bus two_binders_world)
    !! (event_id (OnStart test_draw), BoundMethod 1 "on_start") = Some 50 ∧
  _priorities (w_bus two_binders_world)
    !! (event_id (OnExit test_draw), BoundMethod 1 "on_exit") = Some 50 ∧
  (∀ eid h,
      h ∈ handlers_of (w_bus two_binders_world) eid ↔
      h ∈ handlers_of (w_bus test_world) eid ∨
      (eid = event_id (OnStart test_draw) ∧ h = BoundMethod 1 "on_start") ∨
      (eid = event_id (OnExit test_draw) ∧ h = BoundMethod 1 "on_exit")) ∧
  (∀ o, binder_inv test_draw o test_world → binder_inv test_draw o two_binders_world).
Proof.
  split; [exact (proj1 test_world_inv)|].
  split; [exact (proj1 (proj2 test_world_inv))|]. split; [reflexivity|].
  apply (subscriber_init_binds test_draw 1
           [("bus", None); ("on_exit", None); ("on_start", None)] test_world
           (proj1 test_world_inv) (proj1 (proj2 test_world_inv)) eq_refl).
  - intros eid func. apply test_world_fresh. right. discriminate.
  - discriminate.
  - intros func info Hin. exfalso.
    repeat (apply elem_of_cons in Hin as [Hin|Hin]; [discriminate Hin|]).
    by apply elem_of_nil in Hin.
Defined.
